(** * timeSeriesCompressor: the windowed grouping and aggregation engine

    A shallow embedding of [pkg/compressor/compressor.go], of
    [config/config.go] and of the conversion between the two in [main.go],
    with the properties of them that the specification states and further
    properties of the groups, the emitted objects, the aggregator, the runs
    of [CompressBatch] and the loaded configuration.

    Conventions of the embedding:
    - Go's [int64] and [int] are [Z] with the two's complement wrap-around
      written out ([wrap64]); [float64] is Rocq's primitive binary64 [float];
    - [time.Duration] is its [int64] count of nanoseconds;
    - a Go [map] is a [gmap]; a slice is a [list]; a [nil] result is [None];
    - a [range] over a map takes the entries in any order, so that
      [CompressJSON] is a relation between a payload and what a call on it
      may return;
    - the [gjson] accessors the compressor calls are an interface
      ([gjson.Lib]); [gjson.ParseBytes], [json.Marshal], [os.ReadFile] and
      [yaml.Unmarshal] are parameters. *)

From Stdlib Require Import ZArith Lia Ascii PrimFloat FloatOps SpecFloat FloatAxioms.
From stdpp Require Import gmap strings list fin_maps pretty relations.

Abbreviation bytes := (list Byte.byte).

(** ** Machine integers and floats *)

Module int64.
Local Open Scope Z_scope.

Definition min : Z := - 2 ^ 63.
Definition max : Z := 2 ^ 63 - 1.

Definition InRange (z : Z) : Prop := min <= z <= max.

(** Two's complement reduction of a mathematical integer to 64 bits. *)
Definition wrap64 (z : Z) : Z := (z + 2 ^ 63) mod 2 ^ 64 - 2 ^ 63.

Definition add (a b : Z) : Z := wrap64 (a + b).
Definition mul (a b : Z) : Z := wrap64 (a * b).
(** Go's [/] on integers truncates toward zero; [b] is never zero at the
    two places the compressor divides. *)
Definition quot (a b : Z) : Z := wrap64 (Z.quot a b).

(** [float64(n)] for an integer [n]: round to nearest, ties to even. *)
Definition to_float (z : Z) : float :=
  SF2Prim (binary_normalize prec emax z 0 false).

(** [int64(f)] for a float [f]: truncation toward zero. Go leaves the
    conversion of NaN, infinities and out-of-range values to the
    implementation; amd64 yields the minimum, which is what is written
    here. *)
Definition of_float (f : float) : Z :=
  match Prim2SF f with
  | S754_zero _ => 0
  | S754_finite s m e =>
      let v := if 0 <=? e then Z.pos m * 2 ^ e else Z.shiftr (Z.pos m) (- e) in
      let v := if s then - v else v in
      if (min <=? v) && (v <=? max) then v else min
  | _ => min
  end.
End int64.

Module time.
Local Open Scope Z_scope.

Definition Second : Z := 1000000000.
Definition Minute : Z := 60 * Second.

(** [func (d Duration) Seconds() float64] of Go's standard library. *)
Definition Seconds (d : Z) : float :=
  let sec := Z.quot d Second in
  let nsec := Z.rem d Second in
  (int64.to_float sec + int64.to_float nsec / 1e9)%float.
End time.

(** ** Configuration *)

Record Config := mkConfig {
  TimestampField : string;
  ValueFields : list string;
  GroupByFields : list string;
  AggregationMethod : string;
  TimeWindow : Z;
  UniqueFields : list string;
  Workers : Z;
}.

Record Compressor := mkCompressor { config : Config }.

(** [DefaultConfig] (compressor.go, lines 31-39). *)
Definition DefaultConfig : Config :=
  {| TimestampField := "timestamp";
     ValueFields := ["value"];
     GroupByFields := [];
     AggregationMethod := "sum";
     TimeWindow := time.Minute;
     UniqueFields := [];
     Workers := 4 |}.

(** Assignments to one field of a [Config]. *)
Definition setTimestampField (cfg : Config) (v : string) : Config :=
  {| TimestampField := v; ValueFields := ValueFields cfg;
     GroupByFields := GroupByFields cfg; AggregationMethod := AggregationMethod cfg;
     TimeWindow := TimeWindow cfg; UniqueFields := UniqueFields cfg;
     Workers := Workers cfg |}.

Definition setValueFields (cfg : Config) (v : list string) : Config :=
  {| TimestampField := TimestampField cfg; ValueFields := v;
     GroupByFields := GroupByFields cfg; AggregationMethod := AggregationMethod cfg;
     TimeWindow := TimeWindow cfg; UniqueFields := UniqueFields cfg;
     Workers := Workers cfg |}.

Definition setAggregationMethod (cfg : Config) (v : string) : Config :=
  {| TimestampField := TimestampField cfg; ValueFields := ValueFields cfg;
     GroupByFields := GroupByFields cfg; AggregationMethod := v;
     TimeWindow := TimeWindow cfg; UniqueFields := UniqueFields cfg;
     Workers := Workers cfg |}.

Definition setTimeWindow (cfg : Config) (v : Z) : Config :=
  {| TimestampField := TimestampField cfg; ValueFields := ValueFields cfg;
     GroupByFields := GroupByFields cfg; AggregationMethod := AggregationMethod cfg;
     TimeWindow := v; UniqueFields := UniqueFields cfg;
     Workers := Workers cfg |}.

Definition setWorkers (cfg : Config) (v : Z) : Config :=
  {| TimestampField := TimestampField cfg; ValueFields := ValueFields cfg;
     GroupByFields := GroupByFields cfg; AggregationMethod := AggregationMethod cfg;
     TimeWindow := TimeWindow cfg; UniqueFields := UniqueFields cfg;
     Workers := v |}.

(** [NewCompressor] (compressor.go, lines 41-66). It takes a pointer that
    may be nil: [None]. *)
Definition NewCompressor (cfg : option Config) : Compressor :=
  let cfg := default DefaultConfig cfg in
  let cfg :=
    if decide (TimestampField cfg = "")
    then setTimestampField cfg "timestamp" else cfg in
  let cfg :=
    if decide (length (ValueFields cfg) = 0)
    then setValueFields cfg ["value"] else cfg in
  let defaultAggregation := "sum" in
  let cfg :=
    if decide (AggregationMethod cfg = "")
    then setAggregationMethod cfg defaultAggregation else cfg in
  let cfg :=
    if decide (TimeWindow cfg = 0%Z)
    then setTimeWindow cfg time.Minute else cfg in
  let cfg :=
    if decide (Workers cfg ≤ 0)%Z
    then setWorkers cfg 4 else cfg in
  {| config := cfg |}.

(** ** The aggregator *)

Definition sumOf (values : list float) : float :=
  foldl PrimFloat.add 0%float values.

(** [func (c *Compressor) aggregate(values []float64) float64]
    (compressor.go, lines 185-240). The [switch] is a chain of string
    comparisons; its last branch is the [default]. *)
Definition aggregate (c : Compressor) (values : list float) : float :=
  match values with
  | [] => 0%float
  | v0 :: rest =>
      let method := AggregationMethod (config c) in
      if decide (method = "sum") then sumOf values
      else if decide (method = "avg" ∨ method = "mean") then
        (sumOf values / int64.to_float (Z.of_nat (length values)))%float
      else if decide (method = "min") then
        foldl (λ minVal v, if (v <? minVal)%float then v else minVal) v0 rest
      else if decide (method = "max") then
        (* [v > maxVal] is [maxVal < v] *)
        foldl (λ maxVal v, if (maxVal <? v)%float then v else maxVal) v0 rest
      else if decide (method = "count") then
        int64.to_float (Z.of_nat (length values))
      else if decide (method = "first") then v0
      else if decide (method = "last") then List.last values v0
      else sumOf values
  end.

(** ** The JSON reader

    The compressor reads its input through [github.com/tidwall/gjson]. What
    it uses of a [gjson.Result] is the interface [gjson.Lib]. [gjson.Laws]
    holds what the statements below rely on: [Int] returns an [int64], and a
    result that does not exist is the zero [Result], whose [Int] is 0. *)

Module gjson.
Class Lib (Result : Type) := {
  IsArray : Result → bool;
  IsObject : Result → bool;
  (** the values [ForEach] hands to its iterator, in document order, when
      the result is an array and the iterator keeps returning [true] *)
  ForEach : Result → list Result;
  Get : Result → string → Result;
  Exists : Result → bool;
  Int : Result → Z;
  Float : Result → float;
  String : Result → string;
}.

Class Laws (Result : Type) `{!Lib Result} : Prop := {
  Int_range : ∀ r : Result, int64.InRange (Int r);
  Int_missing : ∀ r : Result, Exists r = false → Int r = 0%Z;
}.
End gjson.

(** ** Groups and output objects *)

(** [Group] (compressor.go, lines 242-249). *)
Record Group := mkGroup {
  Window : Z;
  Tags : gmap string string;
  Values : list float;
  Count : Z;
  FirstTime : Z;
  LastTime : Z;
}.

(** What an [interface{}] of an output object holds. *)
Inductive Value :=
  | VInt64 (n : Z)
  | VFloat64 (f : float)
  | VString (s : string).

(** Go's [error], by its message. *)
Inductive error := Errorf (msg : string).

Section Engine.
Context {Result : Type} `{!gjson.Lib Result}.
(** [gjson.ParseBytes] and [json.Marshal]. *)
Variable ParseBytes : bytes → Result.
Variable Marshal : list (gmap string Value) → option bytes * option error.

Implicit Types (c : Compressor) (value : Result) (groups : gmap string Group).

(** The time window in seconds, before and after the fallback. *)
Definition windowSeconds c : Z :=
  int64.of_float (time.Seconds (TimeWindow (config c))).

Definition windowSec c : Z :=
  let windowSec := windowSeconds c in
  if decide (windowSec = 0%Z) then 60%Z else windowSec.

Definition windowOf c (timestamp : Z) : Z :=
  int64.mul (int64.quot timestamp (windowSec c)) (windowSec c).

(** The two loops that extend [groupKey], one [+=] per field present. *)
Definition groupByKey (fields : list string) value (groupKey : string) : string :=
  foldl (λ groupKey field,
           let val := gjson.Get value field in
           if gjson.Exists val
           then groupKey +:+ ";" +:+ field +:+ ":" +:+ gjson.String val
           else groupKey) groupKey fields.

Definition uniqueKey (fields : list string) value (groupKey : string) : string :=
  foldl (λ groupKey field,
           let val := gjson.Get value field in
           if gjson.Exists val
           then groupKey +:+ ";unique_" +:+ field +:+ ":" +:+ gjson.String val
           else groupKey) groupKey fields.

Definition groupKeyOf c value (window : Z) : string :=
  let groupKey := "window:" +:+ pretty window in
  let groupKey := groupByKey (GroupByFields (config c)) value groupKey in
  uniqueKey (UniqueFields (config c)) value groupKey.

(** The loops that fill [group.Tags] of a new group. *)
Definition captureTags (fields : list string) value
    (tags : gmap string string) : gmap string string :=
  foldl (λ tags field,
           let val := gjson.Get value field in
           if gjson.Exists val then <[field := gjson.String val]> tags else tags)
        tags fields.

Definition newGroup c value (window timestamp : Z) : Group :=
  let tags := captureTags (GroupByFields (config c)) value ∅ in
  let tags := captureTags (UniqueFields (config c)) value tags in
  {| Window := window; Tags := tags; Values := []; Count := 0;
     FirstTime := timestamp; LastTime := timestamp |}.

Definition appendValues (fields : list string) value (values : list float)
    : list float :=
  foldl (λ values field,
           let val := gjson.Get value field in
           if gjson.Exists val then values ++ [gjson.Float val] else values)
        values fields.

(** What every record does to its group, new or old. *)
Definition updateGroup c value (timestamp : Z) (group : Group) : Group :=
  let firstTime :=
    if decide (timestamp < FirstTime group)%Z then timestamp else FirstTime group in
  let lastTime :=
    if decide (timestamp > LastTime group)%Z then timestamp else LastTime group in
  {| Window := Window group; Tags := Tags group;
     Values := appendValues (ValueFields (config c)) value (Values group);
     Count := int64.wrap64 (Count group + 1);
     FirstTime := firstTime; LastTime := lastTime |}.

(** The key under which a record is grouped; [None] when it is skipped. *)
Definition recordKey c value : option string :=
  if negb (gjson.IsObject value) then None
  else
    let timestamp := gjson.Int (gjson.Get value (TimestampField (config c))) in
    if decide (timestamp = 0%Z) then None
    else Some (groupKeyOf c value (windowOf c timestamp)).

(** The iterator of [result.ForEach] (compressor.go, lines 77-150): one
    array element against the map of groups. The groups are pointers; a
    write through the pointer is a write at the group's key. *)
Definition processRecord c groups value : gmap string Group :=
  if negb (gjson.IsObject value) then groups
  else
    let timestamp := gjson.Int (gjson.Get value (TimestampField (config c))) in
    if decide (timestamp = 0%Z) then groups
    else
      let window := windowOf c timestamp in
      let groupKey := groupKeyOf c value window in
      let group :=
        match groups !! groupKey with
        | Some group => group
        | None => newGroup c value window timestamp
        end in
      <[groupKey := updateGroup c value timestamp group]> groups.

Definition scan c (result : Result) : gmap string Group :=
  foldl (processRecord c) ∅ (gjson.ForEach result).

(** The output object of one group (compressor.go, lines 155-180). Later
    writes to [obj] replace earlier ones under the same name. *)
Definition emit c (group : Group) : gmap string Value :=
  let aggregatedValue := aggregate c (Values group) in
  let obj : gmap string Value := ∅ in
  let method := AggregationMethod (config c) in
  let obj :=
    if decide (method = "first")
    then <[TimestampField (config c) := VInt64 (FirstTime group)]> obj
    else if decide (method = "last")
    then <[TimestampField (config c) := VInt64 (LastTime group)]> obj
    else <[TimestampField (config c) :=
             VInt64 (int64.quot (int64.add (FirstTime group) (LastTime group)) 2)]> obj in
  let obj :=
    match ValueFields (config c) with
    | [valueField] => <[valueField := VFloat64 aggregatedValue]> obj
    | _ => <["value" := VFloat64 aggregatedValue]> obj
    end in
  map_fold (λ k v obj, <[k := VString v]> obj) obj (Tags group).

(** Go's [range] over a map visits every entry once, in an order that is
    not specified and that changes from one loop to the next. [order] is
    the order one loop may take over [groups]: any arrangement of its
    entries. *)
Definition ranges groups (order : list (string * Group)) : Prop :=
  order ≡ₚ map_to_list groups.

(** The loop over the groups (compressor.go, lines 153-180), for the order
    its [range] takes. *)
Definition output c (order : list (string * Group)) : list (gmap string Value) :=
  (λ kg, emit c kg.2) <$> order.

(** [CompressJSON] (compressor.go, lines 68-183). [CompressJSON c data r]:
    the call may return [r], the pair of the output, nil as [None], and the
    error, nil as [None]. On an array there is a return for every order the
    [range] over the groups may take. *)
Inductive CompressJSON c (data : bytes) : option bytes * option error → Prop :=
  | CompressJSON_error :
      gjson.IsArray (ParseBytes data) = false →
      CompressJSON c data (None, Some (Errorf "expected JSON array"))
  | CompressJSON_marshal order :
      gjson.IsArray (ParseBytes data) = true →
      ranges (scan c (ParseBytes data)) order →
      CompressJSON c data (Marshal (output c order)).
End Engine.

(** ** CompressBatch

    [CompressBatch] (compressor.go, lines 252-273). One goroutine per batch item, at most [Workers] of them holding a permit
    of the semaphore. A goroutine is [Started] until it has run
    [CompressJSON] and stored the result, [Stored] until its deferred
    receive has given the permit back, [Released] until its deferred
    [wg.Done()]. The main goroutine spawns the items in order, each spawn
    waiting for a free permit, and returns [results] when the wait group is
    empty. Any interleaving of these steps is a run. *)

Inductive phase := Started | Stored | Released.

Record goroutine := mkGoroutine {
  idx : nat;
  data : bytes;
  at_phase : phase;
}.

Record batchState := mkBatchState {
  todo : list (nat * bytes);
  running : list goroutine;
  results : list (option bytes);
}.

Definition holdsPermit (g : goroutine) : bool :=
  match at_phase g with Released => false | _ => true end.

Definition permits (st : batchState) : Z :=
  Z.of_nat (length (filter (λ g, holdsPermit g = true) (running st))).

(** The body of the goroutine after [CompressJSON] has returned [r]:
    [results[idx] = compressed] when [err == nil], nothing otherwise. *)
Definition store (r : option bytes * option error) (idx : nat)
    (results : list (option bytes)) : list (option bytes) :=
  match r with
  | (compressed, None) => <[idx := compressed]> results
  | (_, Some err) => results
  end.

(** What the slot holds after that: the output when [err == nil], and
    otherwise the nil it held before. *)
Definition slotOf (r : option bytes * option error) : option bytes :=
  match r with
  | (compressed, None) => compressed
  | (_, Some err) => None
  end.

Section Batch.
Context {Result : Type} `{!gjson.Lib Result}.
Variable ParseBytes : bytes → Result.
Variable Marshal : list (gmap string Value) → option bytes * option error.

Definition batchInit (batches : list bytes) : batchState :=
  {| todo := imap (λ i batch, (i, batch)) batches;
     running := [];
     results := replicate (length batches) None |}.

Inductive batchStep (c : Compressor) : batchState → batchState → Prop :=
  | step_spawn i batch todo' run res :
      (permits (mkBatchState ((i, batch) :: todo') run res) < Workers (config c))%Z →
      batchStep c (mkBatchState ((i, batch) :: todo') run res)
                  (mkBatchState todo' (run ++ [mkGoroutine i batch Started]) res)
  | step_store td run1 i d run2 res r :
      CompressJSON ParseBytes Marshal c d r →
      batchStep c (mkBatchState td (run1 ++ mkGoroutine i d Started :: run2) res)
                  (mkBatchState td (run1 ++ mkGoroutine i d Stored :: run2)
                                (store r i res))
  | step_release td run1 i d run2 res :
      batchStep c (mkBatchState td (run1 ++ mkGoroutine i d Stored :: run2) res)
                  (mkBatchState td (run1 ++ mkGoroutine i d Released :: run2) res)
  | step_done td run1 i d run2 res :
      batchStep c (mkBatchState td (run1 ++ mkGoroutine i d Released :: run2) res)
                  (mkBatchState td (run1 ++ run2) res).

(** [wg.Wait()] returns: every item was spawned and every goroutine is done. *)
Definition batchDone (st : batchState) : Prop :=
  todo st = [] ∧ running st = [].

(** [CompressBatch c batches] may return [res]. *)
Definition CompressBatchReturns (c : Compressor) (batches : list bytes)
    (res : list (option bytes)) : Prop :=
  ∃ st, rtc (batchStep c) (batchInit batches) st ∧ batchDone st ∧ results st = res.

End Batch.

(** ** Loading the service's configuration

    [config.go] of package [config], and the conversion [main] applies to
    what [LoadConfig] returns before it calls [NewCompressor]. *)

Module config.
Record NATSConfig := mkNATSConfig {
  URL : string;
  Subject : string;
  Queue : string;
  OutputSubject : string;
}.

Record Config := mkConfig {
  Timestamp : string;
  Values : list string;
  GroupBy : list string;
  Unique : list string;
  Method : string;
  Window : Z;
  Workers : Z;
  NATS : NATSConfig;
}.

(** The zero value of [var cfg Config]. *)
Definition zero : Config :=
  {| Timestamp := ""; Values := []; GroupBy := []; Unique := []; Method := "";
     Window := 0; Workers := 0;
     NATS := {| URL := ""; Subject := ""; Queue := ""; OutputSubject := "" |} |}.

(** Assignments to one field. *)
Definition setTimestamp (cfg : Config) (v : string) : Config :=
  {| Timestamp := v; Values := Values cfg; GroupBy := GroupBy cfg;
     Unique := Unique cfg; Method := Method cfg; Window := Window cfg;
     Workers := Workers cfg; NATS := NATS cfg |}.

Definition setValues (cfg : Config) (v : list string) : Config :=
  {| Timestamp := Timestamp cfg; Values := v; GroupBy := GroupBy cfg;
     Unique := Unique cfg; Method := Method cfg; Window := Window cfg;
     Workers := Workers cfg; NATS := NATS cfg |}.

Definition setMethod (cfg : Config) (v : string) : Config :=
  {| Timestamp := Timestamp cfg; Values := Values cfg; GroupBy := GroupBy cfg;
     Unique := Unique cfg; Method := v; Window := Window cfg;
     Workers := Workers cfg; NATS := NATS cfg |}.

Definition setWindow (cfg : Config) (v : Z) : Config :=
  {| Timestamp := Timestamp cfg; Values := Values cfg; GroupBy := GroupBy cfg;
     Unique := Unique cfg; Method := Method cfg; Window := v;
     Workers := Workers cfg; NATS := NATS cfg |}.

Definition setWorkers (cfg : Config) (v : Z) : Config :=
  {| Timestamp := Timestamp cfg; Values := Values cfg; GroupBy := GroupBy cfg;
     Unique := Unique cfg; Method := Method cfg; Window := Window cfg;
     Workers := v; NATS := NATS cfg |}.

Definition setNATS (cfg : Config) (v : NATSConfig) : Config :=
  {| Timestamp := Timestamp cfg; Values := Values cfg; GroupBy := GroupBy cfg;
     Unique := Unique cfg; Method := Method cfg; Window := Window cfg;
     Workers := Workers cfg; NATS := v |}.

Definition setURL (n : NATSConfig) (v : string) : NATSConfig :=
  {| URL := v; Subject := Subject n; Queue := Queue n;
     OutputSubject := OutputSubject n |}.

Definition setSubject (n : NATSConfig) (v : string) : NATSConfig :=
  {| URL := URL n; Subject := v; Queue := Queue n;
     OutputSubject := OutputSubject n |}.

Definition setQueue (n : NATSConfig) (v : string) : NATSConfig :=
  {| URL := URL n; Subject := Subject n; Queue := v;
     OutputSubject := OutputSubject n |}.

Definition setOutputSubject (n : NATSConfig) (v : string) : NATSConfig :=
  {| URL := URL n; Subject := Subject n; Queue := Queue n;
     OutputSubject := v |}.

(** A statement [if cond { assignment }] against the configuration. *)
Definition when (cond : Config → Prop) `{!∀ cfg, Decision (cond cfg)}
    (assign : Config → Config) (cfg : Config) : Config :=
  if decide (cond cfg) then assign cfg else cfg.

Section LoadConfig.
(** [os.ReadFile] and [yaml.Unmarshal]; the latter writes into the
    configuration it is given. *)
Variable ReadFile : string → bytes * option error.
Variable Unmarshal : bytes → Config → Config * option error.

(** [LoadConfig] (config.go, lines 28-69). *)
Definition LoadConfig (path : string) : option Config * option error :=
  let '(data, err) := ReadFile path in
  match err with
  | Some err => (None, Some err)
  | None =>
      let '(cfg, err) := Unmarshal data zero in
      match err with
      | Some err => (None, Some err)
      | None =>
          let cfg :=
            when (λ cfg, Timestamp cfg = "")
                 (λ cfg, setTimestamp cfg "timestamp") cfg in
          let cfg :=
            when (λ cfg, length (Values cfg) = 0)
                 (λ cfg, setValues cfg ["value"]) cfg in
          let cfg :=
            when (λ cfg, Method cfg = "") (λ cfg, setMethod cfg "sum") cfg in
          let cfg :=
            when (λ cfg, Window cfg = 0%Z) (λ cfg, setWindow cfg time.Minute) cfg in
          let cfg :=
            when (λ cfg, Workers cfg = 0%Z) (λ cfg, setWorkers cfg 4) cfg in
          let cfg :=
            when (λ cfg, URL (NATS cfg) = "")
                 (λ cfg, setNATS cfg (setURL (NATS cfg) "nats://localhost:4222")) cfg in
          let cfg :=
            when (λ cfg, Subject (NATS cfg) = "")
                 (λ cfg, setNATS cfg (setSubject (NATS cfg) "timeseries.raw")) cfg in
          let cfg :=
            when (λ cfg, Queue (NATS cfg) = "")
                 (λ cfg, setNATS cfg (setQueue (NATS cfg) "compressor")) cfg in
          let cfg :=
            when (λ cfg, OutputSubject (NATS cfg) = "")
                 (λ cfg, setNATS cfg
                           (setOutputSubject (NATS cfg) "timeseries.compressed")) cfg in
          (Some cfg, None)
      end
  end.
End LoadConfig.
End config.


(** * The vocabulary of the statements *)

(** ** Aggregation methods and configurations *)

(** The compressor [c] with its aggregation method replaced by [method]. *)
Definition withMethod (c : Compressor) (method : string) : Compressor :=
  {| config :=
       {| TimestampField := TimestampField (config c);
          ValueFields := ValueFields (config c);
          GroupByFields := GroupByFields (config c);
          AggregationMethod := method;
          TimeWindow := TimeWindow (config c);
          UniqueFields := UniqueFields (config c);
          Workers := Workers (config c) |} |}.

Definition knownMethods : list string :=
  ["sum"; "avg"; "mean"; "min"; "max"; "count"; "first"; "last"].

(** No field of the configuration has its zero value. *)
Definition populated (cfg : Config) : Prop :=
  TimestampField cfg ≠ "" ∧ ValueFields cfg ≠ [] ∧ AggregationMethod cfg ≠ "" ∧
  TimeWindow cfg ≠ 0%Z ∧ (0 < Workers cfg)%Z.

(** The configuration [NewCompressor] keeps, field by field. *)
Definition resolved (cfg : Config) : Config :=
  {| TimestampField :=
       if decide (TimestampField cfg = "") then "timestamp" else TimestampField cfg;
     ValueFields :=
       if decide (ValueFields cfg = []) then ["value"] else ValueFields cfg;
     GroupByFields := GroupByFields cfg;
     AggregationMethod :=
       if decide (AggregationMethod cfg = "") then "sum" else AggregationMethod cfg;
     TimeWindow :=
       if decide (TimeWindow cfg = 0%Z) then time.Minute else TimeWindow cfg;
     UniqueFields := UniqueFields cfg;
     Workers := if decide (Workers cfg ≤ 0)%Z then 4%Z else Workers cfg |}.

(** ** Group keys *)

Abbreviation chars := String.list_ascii_of_string.

Section KeyVocabulary.
Context {Result : Type} `{!gjson.Lib Result}.

(** The fields of [fields] that exist on the record, in the order of
    [fields], each with its string value. *)
Definition present (fields : list string) (value : Result) : list (string * string) :=
  omap (λ field,
          let val := gjson.Get value field in
          if gjson.Exists val then Some (field, gjson.String val) else None)
       fields.

Definition keyPart (tag : string) (fv : string * string) : string :=
  tag +:+ fv.1 +:+ ":" +:+ fv.2.

Fixpoint keyParts (tag : string) (fvs : list (string * string)) : string :=
  match fvs with
  | [] => ""
  | fv :: fvs => keyPart tag fv +:+ keyParts tag fvs
  end.

(** What one record does to the group at its key, which may not be there
    yet. *)
Definition joinGroup (c : Compressor) (group : option Group) (value : Result)
    : option Group :=
  let timestamp := gjson.Int (gjson.Get value (TimestampField (config c))) in
  Some (updateGroup c value timestamp
          (default (newGroup c value (windowOf c timestamp) timestamp) group)).
End KeyVocabulary.

(** ** Groups and emitted objects *)

(** What holds of every group a scan builds: its tags are named by
    configured group-by or unique fields, and its timestamps are [int64]
    values in order. *)
Record groupOk (c : Compressor) (group : Group) : Prop := mkGroupOk {
  ok_tags : ∀ name, is_Some (Tags group !! name) →
            name ∈ GroupByFields (config c) ++ UniqueFields (config c);
  ok_first : int64.InRange (FirstTime group);
  ok_last : int64.InRange (LastTime group);
  ok_order : (FirstTime group ≤ LastTime group)%Z;
}.

(** The timestamp the [switch] of [emit] writes. *)
Definition timestampOf (c : Compressor) (group : Group) : Z :=
  if decide (AggregationMethod (config c) = "first") then FirstTime group
  else if decide (AggregationMethod (config c) = "last") then LastTime group
  else int64.quot (int64.add (FirstTime group) (LastTime group)) 2.

(** What one pass emits: whatever order the loop takes over the groups of
    the pass on [result], its output is the objects [objs], in some
    order. *)
Definition emits `{!gjson.Lib Result} (c : Compressor) (result : Result)
    (objs : list (gmap string Value)) : Prop :=
  ∀ order, ranges (scan c result) order → output c order ≡ₚ objs.

(** ** Runs of CompressBatch *)

(** The work a run has left: four steps for an item not yet spawned, and
    for a goroutine the steps up to its [wg.Done()]. *)
Definition weight (g : goroutine) : nat :=
  match at_phase g with Started => 3 | Stored => 2 | Released => 1 end.

Definition remaining (st : batchState) : nat :=
  4 * length (todo st) + sum_list_with weight (running st).

Definition startedIn (run : list goroutine) (i : nat) : Prop :=
  ∃ d, mkGoroutine i d Started ∈ run.

(** Item [i] has not had its result stored yet. *)
Definition unstored (st : batchState) (i : nat) : Prop :=
  i ∈ (todo st).*1 ∨ startedIn (running st) i.

Section BatchVocabulary.
Context {Result : Type} `{!gjson.Lib Result}.
Variable ParseBytes : bytes → Result.
Variable Marshal : list (gmap string Value) → option bytes * option error.

(** What the slot of a payload may hold once its goroutine has stored:
    what some return of [CompressJSON] on the payload leaves there. *)
Definition slotFor (c : Compressor) (data : bytes) (slot : option bytes) : Prop :=
  ∃ r, CompressJSON ParseBytes Marshal c data r ∧ slot = slotOf r.

(** What holds of every state of a run on [batches]. *)
Record batchInv (c : Compressor) (batches : list bytes) (st : batchState) : Prop := mkBatchInv {
  inv_length : length (results st) = length batches;
  inv_nodup : NoDup ((todo st).*1 ++ (idx <$> running st));
  inv_todo : ∀ i d, (i, d) ∈ todo st → batches !! i = Some d;
  inv_running : ∀ g, g ∈ running st → batches !! idx g = Some (data g);
  inv_unstored : ∀ i, unstored st i → results st !! i = Some None;
  inv_stored : ∀ i d, batches !! i = Some d → ¬ unstored st i →
               ∃ slot, results st !! i = Some slot ∧ slotFor c d slot;
}.

End BatchVocabulary.

(** ** One pass, record by record *)

Section PassVocabulary.
Context {Result : Type} `{!gjson.Lib Result}.
Implicit Types (c : Compressor) (value : Result) (result : Result).

(** The timestamp [CompressJSON] reads off a record. *)
Definition recordTimestamp c value : Z :=
  gjson.Int (gjson.Get value (TimestampField (config c))).

(** The elements of the array that are grouped under [key], in the order of
    the array. *)
Definition members c result (key : string) : list Result :=
  filter (λ value, recordKey c value = Some key) (gjson.ForEach result).

(** The elements of the array that are grouped at all. *)
Definition included c result : list Result :=
  filter (λ value, is_Some (recordKey c value)) (gjson.ForEach result).

(** The values one record adds to its group. *)
Definition recordValues c value : list float :=
  appendValues (ValueFields (config c)) value [].

(** The group that a non-empty sequence of records makes. *)
Definition groupOf c (records : list Result) : option Group :=
  match records with
  | [] => None
  | first :: rest =>
      Some {| Window := windowOf c (recordTimestamp c first);
              Tags := captureTags (UniqueFields (config c)) first
                        (captureTags (GroupByFields (config c)) first ∅);
              Values := concat (recordValues c <$> records);
              Count := int64.wrap64 (Z.of_nat (length records));
              FirstTime := foldl Z.min (recordTimestamp c first)
                                 (recordTimestamp c <$> rest);
              LastTime := foldl Z.max (recordTimestamp c first)
                                (recordTimestamp c <$> rest) |}
  end.

(** What holds of the timestamps of the group at [key]: they are timestamps
    of its records, every record of the group lies between them and has the
    group's window, and they lie less than a window away from it. *)
Definition groupTimes c result (key : string) (group : Group) : Prop :=
  (∃ value, value ∈ members c result key ∧
            FirstTime group = recordTimestamp c value) ∧
  (∃ value, value ∈ members c result key ∧
            LastTime group = recordTimestamp c value) ∧
  (∀ value, value ∈ members c result key →
     (FirstTime group ≤ recordTimestamp c value ≤ LastTime group)%Z ∧
     windowOf c (recordTimestamp c value) = Window group) ∧
  (Z.abs (FirstTime group - Window group) < Z.abs (windowSec c))%Z ∧
  (Z.abs (LastTime group - Window group) < Z.abs (windowSec c))%Z ∧
  (0 < windowSec c → 0 ≤ FirstTime group →
   Window group ≤ FirstTime group ∧
   LastTime group < Window group + windowSec c)%Z.
End PassVocabulary.

(** All the values held by the groups of a map. *)
Definition allValues (groups : gmap string Group) : list float :=
  concat (Values <$> (map_to_list groups).*2).

(** The name under which [emit] stores the aggregate. *)
Definition valueFieldOf (c : Compressor) : string :=
  match ValueFields (config c) with
  | [valueField] => valueField
  | _ => "value"
  end.

(** ** Loaded configurations *)

(** The configuration [LoadConfig] makes of what was unmarshalled, field by
    field. *)
Definition loaded (cfg : config.Config) : config.Config :=
  {| config.Timestamp :=
       if decide (config.Timestamp cfg = "") then "timestamp" else config.Timestamp cfg;
     config.Values :=
       if decide (config.Values cfg = []) then ["value"] else config.Values cfg;
     config.GroupBy := config.GroupBy cfg;
     config.Unique := config.Unique cfg;
     config.Method :=
       if decide (config.Method cfg = "") then "sum" else config.Method cfg;
     config.Window :=
       if decide (config.Window cfg = 0%Z) then time.Minute else config.Window cfg;
     config.Workers :=
       if decide (config.Workers cfg = 0%Z) then 4%Z else config.Workers cfg;
     config.NATS :=
       {| config.URL :=
            if decide (config.URL (config.NATS cfg) = "")
            then "nats://localhost:4222" else config.URL (config.NATS cfg);
          config.Subject :=
            if decide (config.Subject (config.NATS cfg) = "")
            then "timeseries.raw" else config.Subject (config.NATS cfg);
          config.Queue :=
            if decide (config.Queue (config.NATS cfg) = "")
            then "compressor" else config.Queue (config.NATS cfg);
          config.OutputSubject :=
            if decide (config.OutputSubject (config.NATS cfg) = "")
            then "timeseries.compressed"
            else config.OutputSubject (config.NATS cfg) |} |}.

(** ** A small JSON document model

    An instance of the reader's interface to run the compressor on: arrays
    of objects whose members are scalars, with [gjson]'s conversions.
    Member names are looked up as plain names. *)

Module jsondoc.
Local Open Scope Z_scope.

Inductive scalar :=
  | JNull
  | JFalse
  | JTrue
  | JNumber (n : Z)
  | JString (s : string).

#[warnings="-register-all"]
Inductive doc :=
  | Missing
  | Scalar (s : scalar)
  | Object (members : list (string * scalar))
  | Array (elems : list doc).

Definition quote : string := String (Ascii.ascii_of_nat 34) EmptyString.

Definition rawScalar (s : scalar) : string :=
  match s with
  | JNull => "null"
  | JFalse => "false"
  | JTrue => "true"
  | JNumber n => pretty n
  | JString s => quote +:+ s +:+ quote
  end.

Definition rawMember (m : string * scalar) : string :=
  quote +:+ m.1 +:+ quote +:+ ":" +:+ rawScalar m.2.

Fixpoint join (sep : string) (l : list string) : string :=
  match l with
  | [] => EmptyString
  | [s] => s
  | s :: l => s +:+ sep +:+ join sep l
  end.

Fixpoint raw (d : doc) : string :=
  match d with
  | Missing => EmptyString
  | Scalar s => rawScalar s
  | Object members => "{" +:+ join "," (rawMember <$> members) +:+ "}"
  | Array elems => "[" +:+ join "," (raw <$> elems) +:+ "]"
  end.

Definition digit (a : Ascii.ascii) : option Z :=
  let n := Z.of_N (Ascii.N_of_ascii a) in
  if (48 <=? n) && (n <=? 57) then Some (n - 48) else None.

Fixpoint parseDigits (s : string) (n : Z) : option Z :=
  match s with
  | EmptyString => Some n
  | String a s =>
      match digit a with
      | Some d => parseDigits s (int64.wrap64 (n * 10 + d))
      | None => None
      end
  end.

(** [gjson]'s [parseInt]: an optional minus sign and decimal digits. *)
Definition parseInt (s : string) : option Z :=
  match s with
  | EmptyString => None
  | String "-"%char EmptyString => None
  | String "-"%char s => (λ n, int64.wrap64 (- n)) <$> parseDigits s 0
  | s => parseDigits s 0
  end.

Definition IsArray (d : doc) : bool :=
  match d with Array _ => true | _ => false end.

Definition IsObject (d : doc) : bool :=
  match d with Object _ => true | _ => false end.

Definition ForEach (d : doc) : list doc :=
  match d with
  | Missing => []
  | Scalar s => [Scalar s]
  | Object members => (λ m, Scalar m.2) <$> members
  | Array elems => elems
  end.

Fixpoint lookupMember (members : list (string * scalar)) (name : string) : doc :=
  match members with
  | [] => Missing
  | (k, v) :: members =>
      if decide (k = name) then Scalar v else lookupMember members name
  end.

Definition Get (d : doc) (path : string) : doc :=
  match d with
  | Object members => lookupMember members path
  | _ => Missing
  end.

Definition Exists (d : doc) : bool :=
  match d with Missing => false | _ => true end.

Definition Int (d : doc) : Z :=
  match d with
  | Scalar JTrue => 1
  | Scalar (JNumber n) => int64.wrap64 n
  | Scalar (JString s) => default 0 (parseInt s)
  | _ => 0
  end.

(** [strconv.ParseFloat] is followed on plain decimal integers only. *)
Definition Float (d : doc) : float :=
  match d with
  | Scalar JTrue => 1%float
  | Scalar (JNumber n) => int64.to_float n
  | Scalar (JString s) => int64.to_float (default 0 (parseInt s))
  | _ => 0%float
  end.

Definition String (d : doc) : string :=
  match d with
  | Missing | Scalar JNull => EmptyString
  | Scalar (JString s) => s
  | d => raw d
  end.
End jsondoc.

#[export] Instance jsondoc_lib : gjson.Lib jsondoc.doc :=
  {| gjson.IsArray := jsondoc.IsArray;
     gjson.IsObject := jsondoc.IsObject;
     gjson.ForEach := jsondoc.ForEach;
     gjson.Get := jsondoc.Get;
     gjson.Exists := jsondoc.Exists;
     gjson.Int := jsondoc.Int;
     gjson.Float := jsondoc.Float;
     gjson.String := jsondoc.String |}.

(** A [json.Marshal] to run examples with: it reports how many objects it
    was given and fails on none. *)
Definition marshalCount (objs : list (gmap string Value)) : option bytes * option error :=
  (Some (replicate (length objs) Byte.x00), None).

(** ** Worked inputs

    The inputs below are run through the compressor on the document model
    [jsondoc]. A payload of [n] bytes stands for the [n]-th document of a
    list. *)

Definition parseFrom (docs : list jsondoc.doc) (data : bytes) : jsondoc.doc :=
  default jsondoc.Missing (docs !! length data).

Definition payload (n : nat) : bytes := replicate n Byte.x00.

Definition record (members : list (string * jsondoc.scalar)) : jsondoc.doc :=
  jsondoc.Object members.

Definition num (n : Z) : jsondoc.scalar := jsondoc.JNumber n.
Definition str (s : string) : jsondoc.scalar := jsondoc.JString s.

Definition notArray : jsondoc.doc := record [("not", str "array")].

Definition zeroTimestamp : jsondoc.doc :=
  record [("timestamp", num 0); ("value", num 10)].

Definition kept : jsondoc.doc :=
  record [("timestamp", num 1000); ("value", num 20)].

Definition before1970 : jsondoc.doc :=
  record [("timestamp", num (-1000)); ("value", num 100)].

Definition atTwoTo24 : jsondoc.doc :=
  record [("timestamp", num 16777216); ("value", num 1)].

Definition byTimestamp : Config :=
  {| TimestampField := "ts"; ValueFields := ["val"]; GroupByFields := ["ts"];
     AggregationMethod := "sum"; TimeWindow := 60 * time.Second;
     UniqueFields := []; Workers := 4 |}.

Definition byValue : Config :=
  {| TimestampField := "ts"; ValueFields := ["val"]; GroupByFields := ["val"];
     AggregationMethod := "sum"; TimeWindow := 60 * time.Second;
     UniqueFields := []; Workers := 4 |}.

Definition twoAt1000 : jsondoc.doc :=
  jsondoc.Array [record [("ts", num 1000); ("val", num 10)];
                 record [("ts", num 1000); ("val", num 20)]].

Definition sumPerMinute : Config :=
  {| TimestampField := "ts"; ValueFields := ["val"]; GroupByFields := [];
     AggregationMethod := "sum"; TimeWindow := 60 * time.Second;
     UniqueFields := []; Workers := 2 |}.

Definition tenAndTwenty : jsondoc.doc :=
  jsondoc.Array [record [("ts", num 1000); ("val", num 10)];
                 record [("ts", num 1010); ("val", num 20)]].

Definition perCustomer : Config :=
  {| TimestampField := "timestamp"; ValueFields := ["bytes"];
     GroupByFields := ["server"]; AggregationMethod := "sum";
     TimeWindow := 120 * time.Second; UniqueFields := ["customer_id"];
     Workers := 4 |}.

Definition customerA : jsondoc.doc :=
  record [("timestamp", num 1000); ("bytes", num 100);
          ("server", str "web1"); ("customer_id", str "a;unique_customer_id:b")].

Definition customerB : jsondoc.doc :=
  record [("timestamp", num 1020); ("bytes", num 300);
          ("server", str "web1;unique_customer_id:a"); ("customer_id", str "b")].

Definition web1At1000 : jsondoc.doc :=
  record [("timestamp", num 1000); ("bytes", num 100);
          ("server", str "web1"); ("customer_id", str "a")].

Definition web1At1020 : jsondoc.doc :=
  record [("timestamp", num 1020); ("bytes", num 300);
          ("server", str "web1"); ("customer_id", str "a")].

Definition otherCustomer : jsondoc.doc :=
  record [("timestamp", num 1020); ("bytes", num 300);
          ("server", str "web1"); ("customer_id", str "b")].

Definition later : jsondoc.doc :=
  record [("timestamp", num 2000); ("value", num 30)].

(** The array of the repository's test of elements that are not objects,
    the array of its only object, and an array that holds no record to
    keep. *)
Definition mixedArray : jsondoc.doc :=
  jsondoc.Array [jsondoc.Scalar (num 1); jsondoc.Scalar (str "string"); kept;
                 jsondoc.Scalar jsondoc.JNull].

Definition nothingKept : jsondoc.doc :=
  jsondoc.Array [jsondoc.Scalar jsondoc.JNull; zeroTimestamp].

(** A run of [CompressBatch] on two payloads after its first spawn. *)
Definition afterFirstSpawn : batchState :=
  {| todo := [(1, payload 1)];
     running := [mkGoroutine 0 (payload 0) Started];
     results := [None; None] |}.



(** * Properties *)

(** ** Machine arithmetic *)

Lemma wrap64_range z : int64.InRange (int64.wrap64 z).
Proof.
  unfold int64.InRange, int64.wrap64, int64.min, int64.max.
  pose proof (Z.mod_pos_bound (z + 2 ^ 63) (2 ^ 64)) as Hb. lia.
Qed.

Lemma wrap64_id z : int64.InRange z → int64.wrap64 z = z.
Proof.
  unfold int64.InRange, int64.wrap64, int64.min, int64.max. intros Hz.
  rewrite Z.mod_small; lia.
Qed.

(** ** The document model is lawful *)

Lemma parseDigits_range s n m :
  int64.InRange n → jsondoc.parseDigits s n = Some m → int64.InRange m.
Proof.
  revert n. induction s as [|a s IH]; simpl; intros n Hn Hm.
  - congruence.
  - destruct (jsondoc.digit a); [|done]. eapply IH; [|done]. apply wrap64_range.
Qed.

Lemma parseInt_range s m : jsondoc.parseInt s = Some m → int64.InRange m.
Proof.
  assert (int64.InRange 0) as H0 by (unfold int64.InRange, int64.min, int64.max; lia).
  assert (∀ t, (λ n, int64.wrap64 (- n)) <$> jsondoc.parseDigits t 0 = Some m →
               int64.InRange m) as Hneg.
  { intros t Ht. destruct (jsondoc.parseDigits t 0); simplify_eq/=. apply wrap64_range. }
  unfold jsondoc.parseInt. destruct s as [|a s]; [done|].
  destruct (decide (a = "-"%char)) as [->|Hne].
  - destruct s; [done|]. apply Hneg.
  - intros Hm. apply (parseDigits_range (String a s) 0); [done|].
    destruct a as [[] [] [] [] [] [] [] []]; try done; destruct s; done.
Qed.

Lemma jsondoc_Int_range d : int64.InRange (jsondoc.Int d).
Proof.
  assert (int64.InRange 0) as H0 by (unfold int64.InRange, int64.min, int64.max; lia).
  assert (int64.InRange 1) as H1 by (unfold int64.InRange, int64.min, int64.max; lia).
  destruct d as [|[| | |n|s]| |]; simpl; try done.
  - apply wrap64_range.
  - destruct (jsondoc.parseInt s) eqn:Hs; simpl; [|done]. by eapply parseInt_range.
Qed.

Lemma jsondoc_Int_missing d : jsondoc.Exists d = false → jsondoc.Int d = 0%Z.
Proof. by destruct d. Qed.

#[export] Instance jsondoc_laws : gjson.Laws jsondoc.doc.
Proof. split; [apply jsondoc_Int_range|apply jsondoc_Int_missing]. Qed.

(** ** The aggregator *)

(** C4. Whatever the configured aggregation method, a recognised one or not,
    the aggregator returns exactly 0 on the empty sequence of values. The
    division of ["avg"] is not reached: on no values it would be 0 / 0, which
    is not a number. *)
Theorem aggregate_empty (c : Compressor) (method : string) :
  aggregate (withMethod c method) [] = 0%float ∧
  aggregate c [] = 0%float ∧
  (sumOf [] / int64.to_float (Z.of_nat (length (@nil float))))%float = nan.
Proof. split_and!; reflexivity. Qed.

Lemma aggregate_unknown c values :
  AggregationMethod (config c) ∉ knownMethods →
  aggregate c values = sumOf values.
Proof.
  unfold knownMethods. rewrite !not_elem_of_cons.
  intros (Hsum & Havg & Hmean & Hmin & Hmax & Hcount & Hfirst & Hlast & _).
  unfold aggregate. destruct values as [|v0 rest]; [done|].
  cbv zeta. rewrite !decide_False; tauto.
Qed.

Lemma aggregate_sum c values :
  aggregate (withMethod c "sum") values = sumOf values.
Proof. by destruct values. Qed.

(** C5. On the values 5, 2, 8, 1 the aggregator returns sum 16, min 1,
    max 8, count 4, first 5, last 1 and avg (also mean) 4; and on every
    sequence of values a method name outside sum, avg, mean, min, max,
    count, first and last gives what ["sum"] gives (so 16 on these values
    for the name ["unknown"]). *)
Theorem aggregate_methods (c : Compressor) :
  let values := [5; 2; 8; 1]%float in
  aggregate (withMethod c "sum") values = 16%float ∧
  aggregate (withMethod c "min") values = 1%float ∧
  aggregate (withMethod c "max") values = 8%float ∧
  aggregate (withMethod c "count") values = 4%float ∧
  aggregate (withMethod c "first") values = 5%float ∧
  aggregate (withMethod c "last") values = 1%float ∧
  aggregate (withMethod c "avg") values = 4%float ∧
  aggregate (withMethod c "mean") values = 4%float ∧
  aggregate (withMethod c "unknown") values = 16%float ∧
  ∀ (method : string) (values : list float),
    method ∉ knownMethods →
    aggregate (withMethod c method) values = aggregate (withMethod c "sum") values.
Proof.
  repeat split; try reflexivity.
  intros method values Hm. by rewrite aggregate_sum, aggregate_unknown.
Qed.

(** ** Configuration resolution *)

Lemma NewCompressor_resolved cfg : config (NewCompressor (Some cfg)) = resolved cfg.
Proof.
  destruct cfg as [ts vf gb am tw uf w]. unfold NewCompressor, resolved. simpl.
  destruct (decide (ts = "")); simpl;
    (destruct vf as [|v vf]; simpl);
    (destruct (decide (am = "")); simpl);
    (destruct (decide (tw = 0%Z)); simpl);
    (destruct (decide (w ≤ 0)%Z); simpl); reflexivity.
Qed.

Lemma resolved_populated cfg : populated (resolved cfg).
Proof.
  unfold populated, resolved, time.Minute, time.Second. simpl.
  repeat split; case_decide; try done; lia.
Qed.

Lemma resolved_fixpoint cfg : resolved cfg = cfg ↔ populated cfg.
Proof.
  split.
  - intros <-. apply resolved_populated.
  - destruct cfg as [ts vf gb am tw uf w]. unfold populated, resolved. simpl.
    intros (Hts & Hvf & Ham & Htw & Hw).
    rewrite !decide_False by (done || lia). reflexivity.
Qed.

(** C9. [NewCompressor] replaces the empty timestamp field by ["timestamp"],
    no value fields by the single field ["value"], the empty aggregation
    method by ["sum"], a zero time window by 60 seconds and a worker count of
    0 or less by 4; it keeps every other field, the group-by and unique
    fields among them. The resolved configuration is the given one exactly
    when that one is populated, resolving twice is resolving once, and the
    nil configuration resolves to the default one. *)
Theorem NewCompressor_defaults (cfg : Config) :
  let r := config (NewCompressor (Some cfg)) in
  TimestampField r =
    (if decide (TimestampField cfg = "") then "timestamp" else TimestampField cfg) ∧
  ValueFields r =
    (if decide (ValueFields cfg = []) then ["value"] else ValueFields cfg) ∧
  AggregationMethod r =
    (if decide (AggregationMethod cfg = "") then "sum" else AggregationMethod cfg) ∧
  TimeWindow r =
    (if decide (TimeWindow cfg = 0) then 60 * time.Second else TimeWindow cfg)%Z ∧
  Workers r = (if decide (Workers cfg ≤ 0) then 4 else Workers cfg)%Z ∧
  GroupByFields r = GroupByFields cfg ∧
  UniqueFields r = UniqueFields cfg ∧
  (r = cfg ↔ populated cfg) ∧
  NewCompressor (Some r) = NewCompressor (Some cfg) ∧
  populated r ∧
  config (NewCompressor None) = DefaultConfig.
Proof.
  cbv zeta. rewrite NewCompressor_resolved.
  split_and!; try reflexivity.
  - apply resolved_fixpoint.
  - destruct (NewCompressor (Some (resolved cfg))) as [r'] eqn:Hr'.
    destruct (NewCompressor (Some cfg)) as [r] eqn:Hr. f_equal.
    change r' with (config (mkCompressor r')). rewrite <-Hr'.
    change r with (config (mkCompressor r)). rewrite <-Hr.
    rewrite !NewCompressor_resolved. apply resolved_fixpoint, resolved_populated.
  - apply resolved_populated.
Qed.

(** ** The window of a record *)

Lemma quot_mul_range t ws :
  int64.InRange t → ws ≠ 0%Z → int64.InRange (Z.quot t ws * ws).
Proof.
  unfold int64.InRange, int64.min, int64.max. intros Ht Hws.
  pose proof (Z.quot_rem' t ws) as Hqr.
  destruct (Z_le_gt_dec 0 t) as [Hpos|Hneg].
  - pose proof (Z.rem_nonneg t ws Hws Hpos).
    assert (0 ≤ Z.quot t ws * ws)%Z; [|lia].
    destruct (Z_le_gt_dec 0 ws).
    + apply Z.mul_nonneg_nonneg; [apply Z.quot_pos|]; lia.
    + apply Z.mul_nonpos_nonpos; [|lia].
      rewrite <-(Z.opp_involutive ws), Z.quot_opp_r by lia.
      pose proof (Z.quot_pos t (- ws)). lia.
  - pose proof (Z.rem_nonpos t ws Hws) as Hr.
    assert (Z.quot t ws * ws ≤ 0)%Z; [|lia].
    destruct (Z_le_gt_dec 0 ws).
    + apply Z.mul_nonpos_nonneg; [|lia].
      rewrite <-(Z.opp_involutive t), Z.quot_opp_l by lia.
      pose proof (Z.quot_pos (- t) ws). lia.
    + apply Z.mul_nonneg_nonpos; [|lia].
      rewrite <-(Z.quot_opp_opp t ws) by lia. apply Z.quot_pos; lia.
Qed.

Lemma int64_quot_mul t ws :
  int64.InRange t → ws ≠ 0%Z →
  int64.mul (int64.quot t ws) ws = (Z.quot t ws * ws)%Z.
Proof.
  intros Ht Hws. unfold int64.mul, int64.quot.
  destruct (decide (int64.InRange (Z.quot t ws))) as [Hq|Hq].
  - rewrite (wrap64_id _ Hq). by apply wrap64_id, quot_mul_range.
  - (* the quotient leaves the range only for [min / -1] *)
    assert (t = int64.min ∧ ws = (-1)%Z) as [-> ->]; [|reflexivity].
    unfold int64.InRange, int64.min, int64.max in *.
    pose proof (Z.quot_abs t ws Hws) as Habs.
    pose proof (Z.mul_quot_le (Z.abs t) (Z.abs ws)) as Hle.
    assert (0 ≤ Z.quot (Z.abs t) (Z.abs ws))%Z as Hq0 by (apply Z.quot_pos; lia).
    assert (ws = (-1)%Z ∨ ws = 1%Z ∨ 2 ≤ Z.abs ws)%Z as [->|[->|Hbig]] by lia.
    + change (-1)%Z with (Z.opp 1) in Hq.
      rewrite Z.quot_opp_r, Z.quot_1_r in Hq by lia. lia.
    + rewrite Z.quot_1_r in Hq. lia.
    + exfalso. apply Hq. nia.
Qed.

(** ** The seconds of a duration

    [float64] has 53 bits of mantissa: an integer below [2 ^ 53] in absolute
    value is converted to it and back without rounding, so that a duration
    of that many whole seconds has that many [Seconds()]. *)

Section Seconds.
Local Open Scope Z_scope.

Lemma digits2_pos_size p : digits2_pos p = Pos.size p.
Proof. induction p as [p IH|p IH|]; simpl; by rewrite ?IH. Qed.

Lemma digits2_pos_bound p : Z.pos p < 2 ^ 53 → Z.pos (digits2_pos p) ≤ 53.
Proof.
  intros Hp. rewrite digits2_pos_size.
  pose proof (Pos.size_le p) as Hle.
  apply Pos2Z.pos_le_pos in Hle. rewrite Pos2Z.inj_pow in Hle.
  destruct (Z_le_gt_dec (Z.pos (Pos.size p)) 53) as [|Hgt]; [done|].
  assert (2 ^ 54 ≤ 2 ^ Z.pos (Pos.size p)) by (apply Z.pow_le_mono_r; lia).
  assert (2 ^ 54 = 2 * 2 ^ 53) by reflexivity.
  change (Z.pos p~0) with (2 * Z.pos p) in Hle. lia.
Qed.

Lemma digits2_pos_iter p d :
  digits2_pos (Pos.iter xO p d) = (digits2_pos p + d)%positive.
Proof.
  induction d as [|d IH] using Pos.peano_ind.
  - simpl. lia.
  - rewrite Pos.iter_succ. simpl. rewrite IH. lia.
Qed.

Lemma pos_iter_xO p d : Z.pos (Pos.iter xO p d) = Z.pos p * 2 ^ Z.pos d.
Proof.
  induction d as [|d IH] using Pos.peano_ind.
  - simpl. lia.
  - rewrite Pos.iter_succ, Pos2Z.inj_xO, IH, Pos2Z.inj_succ, Z.pow_succ_r by lia. lia.
Qed.

(** Rounding an integer of at most 53 bits changes nothing. *)
Lemma binary_round_exact (s : bool) p :
  Z.pos p < 2 ^ 53 →
  ∃ m e,
    binary_round prec emax s p 0 = S754_finite s m e ∧
    valid_binary (S754_finite s m e) = true ∧
    -52 ≤ e ≤ 0 ∧ Z.pos m = Z.pos p * 2 ^ (- e).
Proof.
  intros Hp%digits2_pos_bound.
  assert (∃ m e, shl_align p 0 (fexp prec emax (Z.pos (digits2_pos p) + 0)) = (m, e) ∧
                 Z.pos (digits2_pos m) = 53 ∧ -52 ≤ e ≤ 0 ∧
                 Z.pos m = Z.pos p * 2 ^ (- e)) as (m & e & Halign & Hdigits & He & Hm).
  { unfold fexp, emin, prec, emax. rewrite Z.add_0_r.
    rewrite Z.max_l by lia. unfold shl_align. rewrite Z.sub_0_r.
    destruct (Z.pos (digits2_pos p) - 53) as [|d|d] eqn:Hd; [|lia|].
    - exists p, 0. split; [done|]. split; [lia|]. split; [lia|]. simpl. lia.
    - exists (Pos.iter xO p d), (Z.neg d). split; [done|].
      split; [rewrite digits2_pos_iter, Pos2Z.inj_add; lia|]. split; [lia|].
      by rewrite pos_iter_xO. }
  exists m, e. unfold binary_round. rewrite Halign.
  assert (fexp prec emax (Z.pos (digits2_pos m) + e) = e) as Hfexp.
  { unfold fexp, emin, prec, emax. rewrite Hdigits. lia. }
  split; [|split; [|done]].
  - unfold binary_round_aux, shr_fexp. cbn [Zdigits2 shr_record_of_loc].
    rewrite Hfexp, Z.sub_diag. cbn [shr shr_m loc_of_shr_record round_nearest_even].
    cbn [Zdigits2 shr_record_of_loc]. rewrite Hfexp, Z.sub_diag. cbn [shr shr_m].
    unfold prec, emax. destruct (Z.leb_spec e (1024 - 53)); [done|lia].
  - unfold valid_binary, SpecFloat.valid_binary, bounded, canonical_mantissa.
    rewrite Hfexp, Z.eqb_refl.
    unfold prec, emax. simpl. apply Z.leb_le. lia.
Qed.

Lemma to_float_exact (k : Z) :
  k ≠ 0 → - 2 ^ 53 < k < 2 ^ 53 →
  ∃ m e,
    Prim2SF (int64.to_float k) = S754_finite (k <? 0) m e ∧
    -52 ≤ e ≤ 0 ∧ Z.pos m = Z.abs k * 2 ^ (- e).
Proof.
  intros Hk Hrange. unfold int64.to_float.
  destruct k as [|p|p]; [done|..].
  - destruct (binary_round_exact false p) as (m & e & Hround & Hvalid & He & Hm); [lia|].
    exists m, e. cbn [binary_normalize]. by rewrite Hround, Prim2SF_SF2Prim.
  - destruct (binary_round_exact true p) as (m & e & Hround & Hvalid & He & Hm); [lia|].
    exists m, e. cbn [binary_normalize]. by rewrite Hround, Prim2SF_SF2Prim.
Qed.

(** An integer of at most 53 bits survives the conversion to [float64] and
    back. *)
Lemma of_float_to_float (k : Z) :
  - 2 ^ 53 < k < 2 ^ 53 → int64.of_float (int64.to_float k) = k.
Proof.
  intros Hrange. destruct (decide (k = 0)) as [->|Hk]; [reflexivity|].
  destruct (to_float_exact k Hk Hrange) as (m & e & Hprim & He & Hm).
  unfold int64.of_float. rewrite Hprim. cbv zeta.
  assert ((if 0 <=? e then Z.pos m * 2 ^ e else Z.shiftr (Z.pos m) (- e)) = Z.abs k)
    as ->.
  { destruct (Z.leb_spec 0 e).
    - replace e with 0 in * by lia. simpl in Hm. lia.
    - rewrite Z.shiftr_div_pow2 by lia. rewrite Hm. apply Z.div_mul.
      apply Z.pow_nonzero; lia. }
  assert ((if k <? 0 then - Z.abs k else Z.abs k) = k) as ->
    by (destruct (Z.ltb_spec k 0); lia).
  unfold int64.min, int64.max.
  assert (2 ^ 53 < 2 ^ 63) by done.
  destruct (Z.leb_spec (- 2 ^ 63) k), (Z.leb_spec k (2 ^ 63 - 1)); simpl; lia.
Qed.

Lemma float_plus_zero (x : float) s m e :
  Prim2SF x = S754_finite s m e → (x + 0)%float = x.
Proof.
  intros Hx. apply Prim2SF_inj. rewrite add_spec, Hx. reflexivity.
Qed.

(** A duration of a whole number of seconds, of at most 53 bits, converts
    to that number of seconds. *)
Lemma Seconds_whole (k : Z) :
  - 2 ^ 53 < k < 2 ^ 53 → int64.of_float (time.Seconds (k * time.Second)) = k.
Proof.
  intros Hrange. unfold time.Seconds. cbv zeta.
  rewrite Z.quot_mul, Z.rem_mul by done.
  change (int64.to_float 0 / 1e9)%float with 0%float.
  destruct (decide (k = 0)) as [->|Hk]; [reflexivity|].
  destruct (to_float_exact k Hk Hrange) as (m & e & Hprim & _).
  rewrite (float_plus_zero _ _ _ _ Hprim). by apply of_float_to_float.
Qed.
End Seconds.

(** ** Strings as lists of characters *)

Lemma chars_app s1 s2 : chars (s1 +:+ s2) = chars s1 ++ chars s2.
Proof. induction s1 as [|a s1 IH]; simpl; [done|]. by rewrite IH. Qed.

Lemma chars_inj s1 s2 : chars s1 = chars s2 → s1 = s2.
Proof.
  intros Heq. rewrite <-(String.string_of_list_ascii_of_string s1),
    <-(String.string_of_list_ascii_of_string s2). by rewrite Heq.
Qed.

Lemma string_app_assoc s1 s2 s3 : (s1 +:+ s2) +:+ s3 = s1 +:+ s2 +:+ s3.
Proof. apply chars_inj. by rewrite !chars_app, app_assoc. Qed.

Lemma string_app_nil_r s : s +:+ "" = s.
Proof. apply chars_inj. by rewrite chars_app, app_nil_r. Qed.

Lemma string_app_inv_tail s1 s2 t : s1 +:+ t = s2 +:+ t → s1 = s2.
Proof.
  intros Heq. apply chars_inj.
  apply (f_equal chars) in Heq. rewrite !chars_app in Heq.
  by apply app_inv_tail in Heq.
Qed.

(** No decimal numeral holds the separator of the key. *)
Lemma pretty_N_char_not_sep x : pretty_N_char x ≠ ";"%char.
Proof. unfold pretty_N_char. by repeat case_match. Qed.

Lemma pretty_N_go_not_sep x s :
  ";"%char ∉ chars s → ";"%char ∉ chars (pretty_N_go x s).
Proof.
  revert s. induction (N.lt_wf_0 x) as [x _ IH]; intros s Hs.
  assert (x = 0 ∨ 0 < x)%N as [->|Hpos] by lia.
  - by rewrite pretty_N_go_0.
  - rewrite pretty_N_go_step by done. apply IH; [by apply N.div_lt|].
    simpl. apply not_elem_of_cons. split; [|done].
    intros Heq. by apply (pretty_N_char_not_sep (x `mod` 10)%N).
Qed.

Lemma pretty_Z_not_sep (z : Z) : ";"%char ∉ chars (pretty z).
Proof.
  assert (∀ n : N, ";"%char ∉ chars (pretty n)) as HN.
  { intros n. unfold pretty, pretty_N. case_decide.
    - simpl. intros Hin. apply list_elem_of_singleton in Hin. discriminate.
    - apply pretty_N_go_not_sep. simpl. apply not_elem_of_nil. }
  destruct z as [|p|p]; unfold pretty, pretty_Z.
  - simpl. intros Hin. apply list_elem_of_singleton in Hin. discriminate.
  - apply HN.
  - rewrite chars_app. simpl. apply not_elem_of_cons. split; [done|]. apply HN.
Qed.

(** Two strings that agree after texts without separator, each followed by
    nothing or by a separator, agree on those texts. *)
Lemma split_at_sep (l1 l2 r1 r2 : list ascii) :
  ";"%char ∉ l1 → ";"%char ∉ l2 →
  (r1 = [] ∨ ∃ r, r1 = ";"%char :: r) →
  (r2 = [] ∨ ∃ r, r2 = ";"%char :: r) →
  l1 ++ r1 = l2 ++ r2 → l1 = l2.
Proof.
  revert l2. induction l1 as [|a l1 IH]; intros [|b l2] H1 H2 Hr1 Hr2 Heq; simpl in *.
  - done.
  - exfalso. destruct Hr1 as [->|(r & ->)]; [done|].
    injection Heq as <- _. apply H2. by left.
  - exfalso. destruct Hr2 as [->|(r & ->)]; [done|].
    injection Heq as -> _. apply H1. by left.
  - injection Heq as -> Heq. f_equal. apply (IH l2); try done.
    + intros Hin. apply H1. by right.
    + intros Hin. apply H2. by right.
Qed.

Lemma keyParts_head tag fvs :
  (∃ t, tag = String ";"%char t) →
  chars (keyParts tag fvs) = [] ∨ ∃ r, chars (keyParts tag fvs) = ";"%char :: r.
Proof.
  intros (t & ->). destruct fvs as [|fv fvs]; [by left|right].
  simpl. unfold keyPart. simpl. eauto.
Qed.

(** ** The group key *)

Section Keys.
Context {Result : Type} `{!gjson.Lib Result}.
Implicit Types (c : Compressor) (value : Result).

Lemma groupByKey_parts fields value key :
  groupByKey fields value key = key +:+ keyParts ";" (present fields value).
Proof.
  revert key. induction fields as [|f fields IH]; intros key; simpl.
  - by rewrite string_app_nil_r.
  - rewrite IH. unfold present. simpl.
    destruct (gjson.Exists (gjson.Get value f)); simpl; [|done].
    unfold keyPart. simpl. by rewrite !string_app_assoc.
Qed.

Lemma uniqueKey_parts fields value key :
  uniqueKey fields value key = key +:+ keyParts ";unique_" (present fields value).
Proof.
  revert key. induction fields as [|f fields IH]; intros key; simpl.
  - by rewrite string_app_nil_r.
  - rewrite IH. unfold present. simpl.
    destruct (gjson.Exists (gjson.Get value f)); simpl; [|done].
    unfold keyPart. simpl. by rewrite !string_app_assoc.
Qed.

Lemma groupKeyOf_parts c value window :
  groupKeyOf c value window =
    "window:" +:+ pretty window
    +:+ keyParts ";" (present (GroupByFields (config c)) value)
    +:+ keyParts ";unique_" (present (UniqueFields (config c)) value).
Proof.
  unfold groupKeyOf. rewrite uniqueKey_parts, groupByKey_parts.
  by rewrite !string_app_assoc.
Qed.

(** Records with the same window, the same group-by fields present with the
    same string values and the same unique fields present with the same
    string values have the same key. *)
Lemma same_components_same_key c value1 value2 window :
  present (GroupByFields (config c)) value1 = present (GroupByFields (config c)) value2 →
  present (UniqueFields (config c)) value1 = present (UniqueFields (config c)) value2 →
  groupKeyOf c value1 window = groupKeyOf c value2 window.
Proof. intros Hg Hu. by rewrite !groupKeyOf_parts, Hg, Hu. Qed.

Lemma keyParts_app tag l1 l2 :
  keyParts tag (l1 ++ l2) = keyParts tag l1 +:+ keyParts tag l2.
Proof.
  induction l1 as [|fv l1 IH]; simpl; [done|]. by rewrite IH, string_app_assoc.
Qed.

(** Two records that differ in the string value of one unique field, all
    else equal, have different keys. *)
Lemma unique_value_changes_key c value1 value2 window before field v1 v2 after :
  present (GroupByFields (config c)) value1 = present (GroupByFields (config c)) value2 →
  present (UniqueFields (config c)) value1 = before ++ (field, v1) :: after →
  present (UniqueFields (config c)) value2 = before ++ (field, v2) :: after →
  v1 ≠ v2 →
  groupKeyOf c value1 window ≠ groupKeyOf c value2 window.
Proof.
  intros Hg Hu1 Hu2 Hne. rewrite !groupKeyOf_parts, Hg, Hu1, Hu2.
  rewrite !keyParts_app. cbn [keyParts]. unfold keyPart. cbn [fst snd].
  rewrite !string_app_assoc. intros Heq. apply Hne.
  do 7 apply String.app_inj in Heq.
  by apply string_app_inv_tail in Heq.
Qed.
(** The key determines the window. *)
Lemma groupKeyOf_window c value1 value2 window1 window2 :
  groupKeyOf c value1 window1 = groupKeyOf c value2 window2 → window1 = window2.
Proof.
  rewrite !groupKeyOf_parts. intros Heq. apply String.app_inj in Heq.
  apply (f_equal chars) in Heq. rewrite !chars_app in Heq.
  apply (inj pretty). apply chars_inj.
  assert (∀ value,
            let rest :=
              chars (keyParts ";" (present (GroupByFields (config c)) value)) ++
              chars (keyParts ";unique_" (present (UniqueFields (config c)) value)) in
            rest = [] ∨ ∃ r, rest = ";"%char :: r) as Hrest.
  { intros value.
    destruct (keyParts_head ";" (present (GroupByFields (config c)) value))
      as [->|(r & ->)]; [by eexists| |right; by eexists].
    apply keyParts_head. by eexists. }
  eapply split_at_sep; [apply pretty_Z_not_sep|apply pretty_Z_not_sep|..|exact Heq];
    apply Hrest.
Qed.
End Keys.

(** ** One pass of CompressJSON *)

Section EngineProperties.
Context {Result : Type} `{!gjson.Lib Result} `{!gjson.Laws Result}.
Variable ParseBytes : bytes → Result.
Variable Marshal : list (gmap string Value) → option bytes * option error.
Implicit Types (c : Compressor) (value : Result) (groups : gmap string Group).

Local Open Scope Z_scope.

Lemma windowSec_nonzero c : windowSec c ≠ 0.
Proof. unfold windowSec. cbv zeta. case_decide; [done|done]. Qed.

Lemma windowOf_quot c timestamp :
  int64.InRange timestamp →
  windowOf c timestamp = Z.quot timestamp (windowSec c) * windowSec c.
Proof. intros Ht. apply int64_quot_mul; [done|apply windowSec_nonzero]. Qed.

Lemma processRecord_skipped c groups value :
  recordKey c value = None → processRecord c groups value = groups.
Proof.
  unfold recordKey, processRecord.
  destruct (negb (gjson.IsObject value)); [done|]. cbv zeta.
  by case_decide.
Qed.

Lemma processRecord_grouped c groups value key :
  recordKey c value = Some key →
  let timestamp := gjson.Int (gjson.Get value (TimestampField (config c))) in
  processRecord c groups value =
    <[key := updateGroup c value timestamp
               (default (newGroup c value (windowOf c timestamp) timestamp)
                        (groups !! key))]> groups.
Proof.
  unfold recordKey, processRecord.
  destruct (negb (gjson.IsObject value)); [done|]. cbv zeta.
  case_decide; [done|]. intros [= <-]. by destruct (groups !! _).
Qed.

(** The group a pass leaves at a key is made by the records of that key
    alone, in the order of the array. *)
Lemma foldl_processRecord_lookup c l groups key :
  foldl (processRecord c) groups l !! key =
    foldl (joinGroup c) (groups !! key)
          (filter (λ value, recordKey c value = Some key) l).
Proof.
  revert groups. induction l as [|value l IH]; intros groups; simpl; [done|].
  rewrite IH. destruct (recordKey c value) as [k|] eqn:Hkey.
  - rewrite (processRecord_grouped _ _ _ _ Hkey). cbv zeta.
    destruct (decide (k = key)) as [->|Hne].
    + rewrite filter_cons_True by done. simpl. by rewrite lookup_insert_eq.
    + rewrite filter_cons_False by congruence. by rewrite lookup_insert_ne.
  - rewrite processRecord_skipped by done. by rewrite filter_cons_False by congruence.
Qed.

Lemma recordKey_window c value key :
  recordKey c value = Some key →
  key = groupKeyOf c value
          (windowOf c (gjson.Int (gjson.Get value (TimestampField (config c))))).
Proof.
  unfold recordKey. destruct (negb _); [done|]. cbv zeta. case_decide; [done|].
  by intros [= <-].
Qed.

Lemma joinGroup_window c (group : option Group) value window :
  windowOf c (gjson.Int (gjson.Get value (TimestampField (config c)))) = window →
  (∀ g, group = Some g → Window g = window) →
  ∃ g, joinGroup c group value = Some g ∧ Window g = window.
Proof.
  intros Hw Hg. eexists. split; [done|]. simpl.
  destruct group as [g|]; simpl; [by apply Hg|done].
Qed.

Lemma foldl_joinGroup_window c l (group : option Group) window :
  (∀ value, value ∈ l →
     windowOf c (gjson.Int (gjson.Get value (TimestampField (config c)))) = window) →
  (∀ g, group = Some g → Window g = window) →
  ∀ g, foldl (joinGroup c) group l = Some g → Window g = window.
Proof.
  revert group. induction l as [|value l IH]; intros group Hl Hg g; simpl.
  - apply Hg.
  - destruct (joinGroup_window c group value window) as (g' & Hg' & Hw');
      [apply Hl; by left|done|].
    rewrite Hg'. apply IH; [intros v Hv; apply Hl; by right|].
    by intros ? [= <-].
Qed.

Lemma foldl_joinGroup_Some c l (group : option Group) :
  (is_Some group ∨ l ≠ []) → is_Some (foldl (joinGroup c) group l).
Proof.
  revert group. induction l as [|value l IH]; intros group Hne; simpl.
  - by destruct Hne.
  - apply IH. left. by eexists.
Qed.

(** Every record of the array that has a key has a group at that key, and
    the group stores the window of the record. *)
Lemma scan_window c (result : Result) value key :
  value ∈ gjson.ForEach result →
  recordKey c value = Some key →
  ∃ group, scan c result !! key = Some group ∧
           Window group =
             windowOf c (gjson.Int (gjson.Get value (TimestampField (config c)))).
Proof.
  intros Hin Hkey. unfold scan. rewrite foldl_processRecord_lookup, lookup_empty.
  set (l := filter _ _).
  assert (value ∈ l) as Hl by (by apply list_elem_of_filter).
  destruct (foldl_joinGroup_Some c l None) as [group Hgroup].
  { right. intros Hnil. rewrite Hnil in Hl. by apply elem_of_nil in Hl. }
  exists group. split; [done|].
  apply (foldl_joinGroup_window c l None); [|done|done].
  intros v [Hv _]%list_elem_of_filter.
  apply recordKey_window in Hv. apply recordKey_window in Hkey.
  rewrite Hkey in Hv. by apply groupKeyOf_window in Hv.
Qed.

(** *** The loop over the groups, whatever its order *)

Lemma ranges_map_to_list groups : ranges groups (map_to_list groups).
Proof. unfold ranges. reflexivity. Qed.

Lemma ranges_empty order : ranges ∅ order ↔ order = [].
Proof.
  unfold ranges. rewrite map_to_list_empty. split; [|by intros ->].
  apply Permutation_nil_r.
Qed.

Lemma ranges_singleton key (group : Group) order :
  ranges {[ key := group ]} order ↔ order = [(key, group)].
Proof.
  unfold ranges. rewrite map_to_list_singleton. split; [|by intros ->].
  apply Permutation_singleton_r.
Qed.

Lemma elem_of_output c groups order obj :
  ranges groups order →
  obj ∈ output c order ↔ ∃ key group, groups !! key = Some group ∧ obj = emit c group.
Proof.
  intros Horder. unfold output. rewrite list_elem_of_fmap. split.
  - intros ([key group] & -> & Hin). rewrite Horder in Hin.
    apply elem_of_map_to_list in Hin. by exists key, group.
  - intros (key & group & Hg & ->). exists (key, group). split; [done|].
    rewrite Horder. by apply elem_of_map_to_list.
Qed.

Lemma length_output c groups order :
  ranges groups order → length (output c order) = size groups.
Proof.
  intros Horder. unfold output. by rewrite length_fmap, Horder, length_map_to_list.
Qed.

Lemma output_Permutation c groups order order' :
  ranges groups order → ranges groups order' → output c order ≡ₚ output c order'.
Proof.
  unfold ranges, output. intros -> Horder'. by rewrite Horder'.
Qed.

Lemma emits_listed c (result : Result) objs :
  output c (map_to_list (scan c result)) = objs → emits c result objs.
Proof.
  intros <- order Horder. apply (output_Permutation c (scan c result)); [done|].
  apply ranges_map_to_list.
Qed.

Lemma emits_one c (result : Result) obj order :
  emits c result [obj] → ranges (scan c result) order → output c order = [obj].
Proof. intros Hemits Horder. by apply Permutation_singleton_r, Hemits. Qed.

(** *** What CompressJSON may return *)

Lemma CompressJSON_returns c (data : bytes) :
  ∃ r, CompressJSON ParseBytes Marshal c data r.
Proof.
  destruct (gjson.IsArray (ParseBytes data)) eqn:Harr.
  - eexists. apply CompressJSON_marshal; [done|apply ranges_map_to_list].
  - eexists. by apply CompressJSON_error.
Qed.

Lemma CompressJSON_expected_array c (data : bytes) r :
  gjson.IsArray (ParseBytes data) = false →
  CompressJSON ParseBytes Marshal c data r ↔
    r = (None, Some (Errorf "expected JSON array")).
Proof.
  intros Harr. split.
  - destruct 1 as [_|order Harr' _]; [done|congruence].
  - intros ->. by apply CompressJSON_error.
Qed.

Lemma CompressJSON_array c (data : bytes) r :
  gjson.IsArray (ParseBytes data) = true →
  CompressJSON ParseBytes Marshal c data r ↔
    ∃ order, ranges (scan c (ParseBytes data)) order ∧ r = Marshal (output c order).
Proof.
  intros Harr. split.
  - destruct 1 as [Harr'|order _ Horder]; [congruence|]. by exists order.
  - intros (order & Horder & ->). by apply CompressJSON_marshal.
Qed.

Lemma CompressJSON_same_scan c (data data' : bytes) r :
  gjson.IsArray (ParseBytes data) = true →
  gjson.IsArray (ParseBytes data') = true →
  scan c (ParseBytes data) = scan c (ParseBytes data') →
  CompressJSON ParseBytes Marshal c data r ↔ CompressJSON ParseBytes Marshal c data' r.
Proof.
  intros Harr Harr' Hscan. by rewrite !CompressJSON_array, Hscan.
Qed.

(** C6. When the top-level value decoded from the input is not an array,
    [CompressJSON] returns the error "expected JSON array" with a nil
    output, and it returns nothing else. *)
Theorem CompressJSON_not_array c (data : bytes) :
  gjson.IsArray (ParseBytes data) = false →
  CompressJSON ParseBytes Marshal c data (None, Some (Errorf "expected JSON array")) ∧
  ∀ r, CompressJSON ParseBytes Marshal c data r →
       r = (None, Some (Errorf "expected JSON array")).
Proof.
  intros Harr. split.
  - by apply CompressJSON_error.
  - intros r. by apply CompressJSON_expected_array.
Qed.

Lemma scan_skip c groups before value after :
  recordKey c value = None →
  foldl (processRecord c) groups (before ++ value :: after) =
  foldl (processRecord c) groups (before ++ after).
Proof.
  intros Hskip. rewrite !foldl_app. simpl. by rewrite processRecord_skipped.
Qed.

(** C7. An object of the array whose timestamp field is absent, or is
    present with the integer value 0, has no group key and leaves the map of
    groups as it is; the whole call may return exactly what it may return on
    the array without that element, so the record reaches no group and no
    aggregate, and its presence raises no error. *)
Theorem skipped_record c value :
  gjson.IsObject value = true →
  gjson.Exists (gjson.Get value (TimestampField (config c))) = false ∨
    gjson.Int (gjson.Get value (TimestampField (config c))) = 0 →
  recordKey c value = None ∧
  (∀ groups, processRecord c groups value = groups) ∧
  ∀ (data data' : bytes) before after,
    gjson.IsArray (ParseBytes data) = true →
    gjson.ForEach (ParseBytes data) = before ++ value :: after →
    gjson.IsArray (ParseBytes data') = true →
    gjson.ForEach (ParseBytes data') = before ++ after →
    scan c (ParseBytes data) = scan c (ParseBytes data') ∧
    ∀ r, CompressJSON ParseBytes Marshal c data r ↔
         CompressJSON ParseBytes Marshal c data' r.
Proof.
  intros Hobj Hts.
  assert (gjson.Int (gjson.Get value (TimestampField (config c))) = 0) as Hzero.
  { destruct Hts as [Hmiss|Hz]; [by apply gjson.Int_missing|done]. }
  assert (recordKey c value = None) as Hkey.
  { unfold recordKey. rewrite Hobj. simpl. by rewrite decide_True. }
  split_and!; [done|by intros; apply processRecord_skipped|].
  intros data data' before after Harr Helems Harr' Helems'.
  assert (scan c (ParseBytes data) = scan c (ParseBytes data')) as Hscan.
  { unfold scan. rewrite Helems, Helems'. by apply scan_skip. }
  split; [done|]. intros r. by apply CompressJSON_same_scan.
Qed.

(** C2, as the code has it. A record of the array with a nonzero timestamp
    [t] is keyed by the window [(t quot w) * w], and the group one pass
    leaves at its key stores that window, where [quot] truncates toward zero
    and [w] is [int64(TimeWindow.Seconds())], or 60 when that is 0:
    [Seconds()] is the [float64] sum of the whole seconds of the time window
    and of its remaining nanoseconds over [1e9], and the conversion
    truncates it toward zero. For a time window of a whole number [k] of
    seconds, [k] below [2 ^ 53] in absolute value, [int64(Seconds())] is
    [k]. The window is [floor (t / w) * w] when [t] and [w] have the same
    sign. *)
Theorem window_of_record c (result : Result) value :
  let timestamp := gjson.Int (gjson.Get value (TimestampField (config c))) in
  let seconds := int64.of_float (time.Seconds (TimeWindow (config c))) in
  let w := if decide (seconds = 0) then 60 else seconds in
  let window := Z.quot timestamp w * w in
  value ∈ gjson.ForEach result →
  gjson.IsObject value = true →
  timestamp ≠ 0 →
  windowOf c timestamp = window ∧
  recordKey c value = Some (groupKeyOf c value window) ∧
  (∃ group, scan c result !! groupKeyOf c value window = Some group ∧
            Window group = window) ∧
  ((0 < timestamp ∧ 0 < w) ∨ (timestamp < 0 ∧ w < 0) →
   window = timestamp / w * w) ∧
  (∀ k, TimeWindow (config c) = k * time.Second → - 2 ^ 53 < k < 2 ^ 53 →
        seconds = k ∧ w = if decide (k = 0) then 60 else k).
Proof.
  intros timestamp seconds w window Hin Hobj Hts.
  assert (windowOf c timestamp = window) as Hwin.
  { unfold window, w. rewrite windowOf_quot by apply gjson.Int_range. done. }
  assert (recordKey c value = Some (groupKeyOf c value window)) as Hkey.
  { unfold recordKey. rewrite Hobj. simpl. fold timestamp.
    rewrite decide_False by done. by rewrite Hwin. }
  split_and!; [done|done|..].
  - destruct (scan_window c result value _ Hin Hkey) as (group & Hgroup & Hw).
    exists group. split; [done|]. fold timestamp in Hw. by rewrite Hw.
  - intros Hsign. unfold window. f_equal.
    destruct Hsign as [[Ht Hw]|[Ht Hw]].
    + apply Z.quot_div_nonneg; lia.
    + rewrite <-(Z.quot_opp_opp timestamp w), <-(Z.div_opp_opp timestamp w) by lia.
      apply Z.quot_div_nonneg; lia.
  - intros k Hk Hrange.
    assert (seconds = k) as Hseconds.
    { unfold seconds. rewrite Hk. by apply Seconds_whole. }
    split; [done|]. unfold w. by rewrite Hseconds.
Qed.
End EngineProperties.

(** ** Groups built by a scan, and the objects emitted for them *)

Section Emit.
Context {Result : Type} `{!gjson.Lib Result} `{!gjson.Laws Result}.
Implicit Types (c : Compressor) (value : Result) (groups : gmap string Group).

Lemma captureTags_names fields value tags name :
  is_Some (captureTags fields value tags !! name) →
  name ∈ fields ∨ is_Some (tags !! name).
Proof.
  revert tags. induction fields as [|f fields IH]; intros tags; simpl; [by right|].
  intros Hin. apply IH in Hin as [Hin|Hin]; [left; by right|].
  destruct (gjson.Exists (gjson.Get value f)); [|by right].
  destruct (decide (f = name)) as [->|Hne]; [left; by left|].
  rewrite lookup_insert_ne in Hin by done. by right.
Qed.

Lemma newGroup_ok c value window timestamp :
  int64.InRange timestamp → groupOk c (newGroup c value window timestamp).
Proof.
  intros Ht. split; simpl; [|done|done|lia].
  intros name Hin. apply captureTags_names in Hin as [Hin|Hin]; [set_solver|].
  apply captureTags_names in Hin as [Hin|Hin]; [set_solver|].
  rewrite lookup_empty in Hin. by destruct Hin.
Qed.

Lemma updateGroup_ok c value timestamp group :
  int64.InRange timestamp → groupOk c group →
  groupOk c (updateGroup c value timestamp group).
Proof.
  intros Ht [Htags Hf Hl Hord]. split; simpl; [done|..]; repeat case_decide; done || lia.
Qed.

Lemma processRecord_ok c groups value :
  map_Forall (λ _, groupOk c) groups →
  map_Forall (λ _, groupOk c) (processRecord c groups value).
Proof.
  intros Hok. destruct (recordKey c value) as [key|] eqn:Hkey.
  - rewrite (processRecord_grouped _ _ _ _ Hkey). cbv zeta.
    apply map_Forall_insert_2; [|done].
    apply updateGroup_ok; [apply gjson.Int_range|].
    destruct (groups !! key) as [group|] eqn:Hg; simpl.
    + by apply (Hok key).
    + apply newGroup_ok, gjson.Int_range.
  - by rewrite processRecord_skipped.
Qed.

Lemma scan_ok c (result : Result) : map_Forall (λ _, groupOk c) (scan c result).
Proof.
  unfold scan.
  assert (∀ l groups, map_Forall (λ _, groupOk c) groups →
            map_Forall (λ _, groupOk c) (foldl (processRecord c) groups l)) as Hfold.
  { induction l as [|v l IH]; intros groups Hok; simpl; [done|].
    by apply IH, processRecord_ok. }
  apply Hfold, map_Forall_empty.
Qed.

(** The loop [for k, v := range group.Tags { obj[k] = v }]. *)
Lemma merge_tags_lookup (tags : gmap string string) (obj : gmap string Value) name :
  map_fold (λ k v obj, <[k := VString v]> obj) obj tags !! name =
    match tags !! name with
    | Some v => Some (VString v)
    | None => obj !! name
    end.
Proof.
  revert name.
  apply (map_fold_weak_ind
           (λ r (m : gmap string string), ∀ name,
              r !! name = match m !! name with
                          | Some v => Some (VString v)
                          | None => obj !! name
                          end)).
  - intros name. by rewrite lookup_empty.
  - intros k v m r Hk IH name. destruct (decide (k = name)) as [->|Hne].
    + by rewrite !lookup_insert_eq.
    + by rewrite !lookup_insert_ne, IH by done.
Qed.

Lemma emit_timestamp c group valueField :
  (∀ f, ValueFields (config c) = [f] → valueField = f) →
  (length (ValueFields (config c)) ≠ 1 → valueField = "value") →
  Tags group !! TimestampField (config c) = None →
  TimestampField (config c) ≠ valueField →
  emit c group !! TimestampField (config c) = Some (VInt64 (timestampOf c group)).
Proof.
  intros Hone Hmany Htag Hne. unfold emit. cbv zeta.
  rewrite merge_tags_lookup, Htag.
  assert (∀ (obj : gmap string Value),
    match ValueFields (config c) with
    | [f] => <[f := VFloat64 (aggregate c (Values group))]> obj
    | _ => <["value" := VFloat64 (aggregate c (Values group))]> obj
    end = <[valueField := VFloat64 (aggregate c (Values group))]> obj) as ->.
  { intros obj. destruct (ValueFields (config c)) as [|f [|f' fs]] eqn:Hvf.
    - by rewrite Hmany.
    - by rewrite (Hone f).
    - by rewrite Hmany. }
  rewrite lookup_insert_ne by done. unfold timestampOf.
  repeat case_decide; by rewrite lookup_insert_eq.
Qed.

Lemma emit_value c group valueField :
  (∀ f, ValueFields (config c) = [f] → valueField = f) →
  (length (ValueFields (config c)) ≠ 1 → valueField = "value") →
  Tags group !! valueField = None →
  emit c group !! valueField = Some (VFloat64 (aggregate c (Values group))).
Proof.
  intros Hone Hmany Htag. unfold emit. cbv zeta.
  rewrite merge_tags_lookup, Htag.
  destruct (ValueFields (config c)) as [|f [|f' fs]] eqn:Hvf.
  - rewrite Hmany by done. by rewrite lookup_insert_eq.
  - rewrite (Hone f) by done. by rewrite lookup_insert_eq.
  - rewrite Hmany by done. by rewrite lookup_insert_eq.
Qed.

Lemma average_no_overflow (first last : Z) :
  int64.InRange (first + last) →
  int64.quot (int64.add first last) 2 = Z.quot (first + last) 2.
Proof.
  intros Hsum. unfold int64.quot, int64.add. rewrite (wrap64_id _ Hsum).
  apply wrap64_id. revert Hsum. unfold int64.InRange, int64.min, int64.max.
  intros Hsum. pose proof (Z.quot_rem' (first + last) 2) as Hqr.
  destruct (Z_le_gt_dec 0 (first + last)).
  - pose proof (Z.rem_bound_pos (first + last) 2). lia.
  - pose proof (Z.rem_bound_pos_neg (first + last) 2). lia.
Qed.

(** C3, as the code has it. Every object emitted by one pass, in whatever
    order the groups are visited, is the object of a group of the scan. Unless a configured group-by or unique field, or
    the value field, has the name of the timestamp field, the object holds
    under the timestamp field the group's [FirstTime] for the method
    ["first"], its [LastTime] for ["last"], and otherwise
    [(FirstTime + LastTime) / 2] in [int64] arithmetic, which is the
    truncated average when the sum fits in an [int64]. Unless a configured
    group-by or unique field has the name of the value field, the object
    holds the aggregate under the only configured value field, or under
    ["value"] when the number of configured value fields is not one. *)
Theorem emitted_fields c (result : Result) order obj valueField :
  ranges (scan c result) order →
  obj ∈ output c order →
  (∀ f, ValueFields (config c) = [f] → valueField = f) →
  (length (ValueFields (config c)) ≠ 1 → valueField = "value") →
  ∃ key group,
    scan c result !! key = Some group ∧
    obj = emit c group ∧
    (TimestampField (config c) ∉ GroupByFields (config c) ++ UniqueFields (config c) →
     TimestampField (config c) ≠ valueField →
     obj !! TimestampField (config c) =
       Some (VInt64
               (if decide (AggregationMethod (config c) = "first")
                then FirstTime group
                else if decide (AggregationMethod (config c) = "last")
                then LastTime group
                else int64.quot (int64.add (FirstTime group) (LastTime group)) 2))) ∧
    (int64.InRange (FirstTime group + LastTime group) →
     int64.quot (int64.add (FirstTime group) (LastTime group)) 2 =
       Z.quot (FirstTime group + LastTime group) 2) ∧
    (valueField ∉ GroupByFields (config c) ++ UniqueFields (config c) →
     obj !! valueField = Some (VFloat64 (aggregate c (Values group)))).
Proof.
  intros Horder Hobj Hone Hmany.
  apply (elem_of_output c _ _ _ Horder) in Hobj as (key & group & Hkg & ->).
  exists key, group.
  pose proof (scan_ok c result key group Hkg) as [Htags _ _ _].
  assert (∀ name,
            name ∉ GroupByFields (config c) ++ UniqueFields (config c) →
            Tags group !! name = None) as Hnotag.
  { intros name Hname. apply eq_None_not_Some. intros Hsome. by apply Hname, Htags. }
  split_and!; [done|done|..].
  - intros Hts Hne. apply (emit_timestamp c group valueField); auto.
  - apply average_no_overflow.
  - intros Hvf. apply emit_value; auto.
Qed.
End Emit.

(** ** Records that carry no value *)

Section Valueless.
Context {Result : Type} `{!gjson.Lib Result}.
Implicit Types (c : Compressor) (value : Result) (groups : gmap string Group).

Lemma appendValues_absent fields value values :
  (∀ f, f ∈ fields → gjson.Exists (gjson.Get value f) = false) →
  appendValues fields value values = values.
Proof.
  induction fields as [|f fields IH]; intros Habs; simpl; [done|].
  rewrite (Habs f) by left. apply IH. intros f' Hf'. apply Habs. by right.
Qed.

(** A record with a nonzero timestamp and none of the configured value
    fields has a key; at that key it creates a group with no values and
    count 1, or it widens the timestamps of the group that is there and
    adds 1 to its count, the values staying as they are. No other key
    changes. *)
Lemma valueless_record_joins c groups value :
  let timestamp := gjson.Int (gjson.Get value (TimestampField (config c))) in
  gjson.IsObject value = true →
  timestamp ≠ 0%Z →
  (∀ f, f ∈ ValueFields (config c) → gjson.Exists (gjson.Get value f) = false) →
  ∃ key,
    recordKey c value = Some key ∧
    (∀ k, k ≠ key → processRecord c groups value !! k = groups !! k) ∧
    processRecord c groups value !! key =
      Some match groups !! key with
           | None =>
               {| Window := windowOf c timestamp;
                  Tags := Tags (newGroup c value (windowOf c timestamp) timestamp);
                  Values := []; Count := 1;
                  FirstTime := timestamp; LastTime := timestamp |}
           | Some group =>
               {| Window := Window group; Tags := Tags group;
                  Values := Values group;
                  Count := int64.wrap64 (Count group + 1);
                  FirstTime := Z.min timestamp (FirstTime group);
                  LastTime := Z.max timestamp (LastTime group) |}
           end.
Proof.
  intros timestamp Hobj Hts Habs.
  exists (groupKeyOf c value (windowOf c timestamp)).
  assert (recordKey c value = Some (groupKeyOf c value (windowOf c timestamp))) as Hkey.
  { unfold recordKey. rewrite Hobj. simpl. fold timestamp. by rewrite decide_False. }
  split; [done|]. rewrite (processRecord_grouped _ _ _ _ Hkey). cbv zeta. fold timestamp.
  split; [intros k Hk; by rewrite lookup_insert_ne|].
  rewrite lookup_insert_eq. f_equal. unfold updateGroup. cbv zeta.
  rewrite appendValues_absent by done.
  destruct (groups !! _) as [group|]; simpl.
  - f_equal; repeat case_decide; lia.
  - f_equal; repeat case_decide; lia.
Qed.
End Valueless.

(** ** The statements at worked inputs *)

(** *** A payload that is not an array *)

Lemma CompressJSON_not_array_witness :
  CompressJSON (parseFrom [notArray]) marshalCount (NewCompressor None) (payload 0)
               (None, Some (Errorf "expected JSON array")).
Proof.
  apply (CompressJSON_not_array (parseFrom [notArray]) marshalCount).
  reflexivity.
Defined.

(** *** A record with timestamp 0 *)

Lemma skipped_record_witness :
  let parse := parseFrom [jsondoc.Array [zeroTimestamp; kept]; jsondoc.Array [kept]] in
  let c := NewCompressor None in
  recordKey c zeroTimestamp = None ∧
  scan c (parse (payload 0)) = scan c (parse (payload 1)) ∧
  ∀ r, CompressJSON parse marshalCount c (payload 0) r ↔
       CompressJSON parse marshalCount c (payload 1) r.
Proof.
  intros parse c.
  destruct (skipped_record parse marshalCount c zeroTimestamp)
    as (Hkey & _ & Hsame); [reflexivity|right; reflexivity|].
  split; [exact Hkey|].
  apply (Hsame (payload 0) (payload 1) [] [kept]); reflexivity.
Defined.

(** *** Windows *)

(** C2 fails as stated, twice.
    - The quotient is truncated, not floored: with the default window of 60
      seconds the record with timestamp -1000 is keyed by, and its group
      stores, the window -960, while [floor (-1000 / 60) * 60] is -1020.
    - The seconds of the window are taken from a [float64], not from the
      whole seconds: the window of 16777216999999999 nanoseconds has
      16777216 whole seconds, but [Seconds()] rounds 16777216.999999999 to
      16777217, so that the record with timestamp 16777216 is keyed by, and
      its group stores, the window 0, not 16777216. *)
Lemma window_not_floor :
  (let c := NewCompressor None in
   gjson.Int (gjson.Get before1970 (TimestampField (config c))) = (-1000)%Z ∧
   windowSeconds c = 60%Z ∧
   recordKey c before1970 = Some "window:-960" ∧
   Window <$> scan c (jsondoc.Array [before1970]) !! "window:-960" = Some (-960)%Z ∧
   windowOf c (-1000) ≠ (-1000 / 60 * 60)%Z ∧
   (-1000 / 60 * 60)%Z = (-1020)%Z) ∧
  (let c := NewCompressor (Some (setTimeWindow DefaultConfig 16777216999999999)) in
   let wholeSeconds := Z.quot (TimeWindow (config c)) time.Second in
   wholeSeconds = 16777216%Z ∧
   int64.of_float (time.Seconds (TimeWindow (config c))) = 16777217%Z ∧
   windowSec c = 16777217%Z ∧
   gjson.Int (gjson.Get atTwoTo24 (TimestampField (config c))) = 16777216%Z ∧
   recordKey c atTwoTo24 = Some "window:0" ∧
   Window <$> scan c (jsondoc.Array [atTwoTo24]) !! "window:0" = Some 0%Z ∧
   windowOf c 16777216 ≠ (16777216 / wholeSeconds * wholeSeconds)%Z ∧
   (16777216 / wholeSeconds * wholeSeconds)%Z = 16777216%Z).
Proof. cbv zeta. split_and!; try reflexivity; by vm_compute. Qed.

Lemma window_of_record_witness :
  let c := NewCompressor None in
  windowOf c 1000 = 960%Z ∧
  recordKey c kept = Some "window:960" ∧
  (∃ group, scan c (jsondoc.Array [zeroTimestamp; kept]) !! "window:960" = Some group ∧
            Window group = 960%Z) ∧
  960%Z = (1000 / 60 * 60)%Z ∧
  int64.of_float (time.Seconds (TimeWindow (config c))) = 60%Z.
Proof.
  intros c.
  destruct (window_of_record c (jsondoc.Array [zeroTimestamp; kept]) kept)
    as (Hwin & Hkey & Hgroup & Hfloor & Hwhole).
  - change (kept ∈ [zeroTimestamp; kept]). right. by left.
  - reflexivity.
  - by vm_compute.
  - split; [exact Hwin|]. split; [exact Hkey|]. split; [exact Hgroup|].
    split; [apply Hfloor; left; split; reflexivity|].
    apply (Hwhole 60%Z); [reflexivity|]. split; reflexivity.
Defined.

(** A window of half a second is 0 whole seconds and falls back to 60; a
    window of 90.5 seconds is 90 whole seconds. *)
Lemma windowSec_examples :
  windowSeconds (NewCompressor (Some (setTimeWindow DefaultConfig 500000000))) = 0%Z ∧
  windowSec (NewCompressor (Some (setTimeWindow DefaultConfig 500000000))) = 60%Z ∧
  windowSec (NewCompressor (Some (setTimeWindow DefaultConfig 90500000000))) = 90%Z ∧
  windowSec (NewCompressor (Some (setTimeWindow DefaultConfig (-90500000000)))) = (-90)%Z.
Proof. split_and!; reflexivity. Qed.

(** *** Emitted objects *)

(** C3 fails as stated: the object of a group is one map, written in the
    order timestamp, aggregate, tags, and the sum of two timestamps is an
    [int64].
    - When the timestamp field is also a group-by field, the tag replaces the
      timestamp: the group of the two records at 1000 has [FirstTime] and
      [LastTime] 1000, and its object holds the string ["1000"] under [ts],
      not the integer [(1000 + 1000) / 2].
    - When the timestamp field is also the value field, the aggregate
      replaces the timestamp.
    - When the value field is also a group-by field, the tag replaces the
      aggregate.
    - When the sum of the two timestamps does not fit, the emitted timestamp
      is not their average. *)
Lemma emitted_timestamp_replaced :
  (let c := NewCompressor (Some byTimestamp) in
   scan c twoAt1000 =
     {[ "window:960;ts:1000" :=
          {| Window := 960; Tags := {[ "ts" := "1000" ]};
             Values := [10; 20]%float; Count := 2;
             FirstTime := 1000; LastTime := 1000 |} ]} ∧
   emits c twoAt1000 [ {[ "ts" := VString "1000"; "val" := VFloat64 30 ]} ] ∧
   ∀ order, ranges (scan c twoAt1000) order →
     ∃ obj, obj ∈ output c order ∧
            obj !! "ts" ≠ Some (VInt64 (Z.quot (1000 + 1000) 2))) ∧
  (let c := NewCompressor (Some (setValueFields sumPerMinute ["ts"])) in
   FirstTime <$> scan c tenAndTwenty = {[ "window:960" := 1000%Z ]} ∧
   LastTime <$> scan c tenAndTwenty = {[ "window:960" := 1010%Z ]} ∧
   emits c tenAndTwenty [ {[ "ts" := VFloat64 2010 ]} ]) ∧
  (let c := NewCompressor (Some byValue) in
   Values <$> scan c twoAt1000 =
     {[ "window:960;val:10" := [10]%float; "window:960;val:20" := [20]%float ]} ∧
   emit c <$> scan c twoAt1000 =
     {[ "window:960;val:10" := {[ "ts" := VInt64 1000; "val" := VString "10" ]};
        "window:960;val:20" := {[ "ts" := VInt64 1000; "val" := VString "20" ]} ]}) ∧
  (let c := NewCompressor (Some sumPerMinute) in
   let input :=
     jsondoc.Array [record [("ts", num (2 ^ 62)); ("val", num 10)];
                    record [("ts", num (2 ^ 62 + 1)); ("val", num 20)]] in
   FirstTime <$> scan c input = {[ "window:4611686018427387900" := (2 ^ 62)%Z ]} ∧
   LastTime <$> scan c input = {[ "window:4611686018427387900" := (2 ^ 62 + 1)%Z ]} ∧
   emits c input
     [ {[ "ts" := VInt64 (-4611686018427387903); "val" := VFloat64 30 ]} ] ∧
   Z.quot (2 ^ 62 + (2 ^ 62 + 1)) 2 = (2 ^ 62)%Z).
Proof.
  cbv zeta. split_and!; try reflexivity; try (by apply emits_listed).
  intros order Horder.
  assert (emits (NewCompressor (Some byTimestamp)) twoAt1000
                [ {[ "ts" := VString "1000"; "val" := VFloat64 30 ]} ]) as Hemits
    by (by apply emits_listed).
  rewrite (emits_one _ _ _ _ Hemits Horder).
  eexists. split; [apply list_elem_of_singleton; reflexivity|]. by vm_compute.
Qed.

Lemma emitted_fields_witness :
  let c := NewCompressor (Some sumPerMinute) in
  let obj : gmap string Value := {[ "ts" := VInt64 1005; "val" := VFloat64 30 ]} in
  emits c tenAndTwenty [obj] ∧
  ∃ key group,
    scan c tenAndTwenty !! key = Some group ∧
    obj !! "ts" = Some (VInt64 (Z.quot (FirstTime group + LastTime group) 2)) ∧
    obj !! "val" = Some (VFloat64 (aggregate c (Values group))).
Proof.
  intros c obj. split; [by apply emits_listed|].
  destruct (emitted_fields c tenAndTwenty (map_to_list (scan c tenAndTwenty)) obj "val")
    as (key & group & Hgroup & Hobj & Hts & Havg & Hval).
  - apply ranges_map_to_list.
  - assert (output c (map_to_list (scan c tenAndTwenty)) = [obj]) as -> by reflexivity.
    by apply list_elem_of_singleton.
  - by intros f [= <-].
  - by intros [].
  - exists key, group. split; [exact Hgroup|].
    assert (group = {| Window := 960; Tags := ∅; Values := [10; 20]%float;
                       Count := 2; FirstTime := 1000; LastTime := 1010 |}) as ->.
    { assert (scan c tenAndTwenty =
                {[ "window:960" := {| Window := 960; Tags := ∅;
                                      Values := [10; 20]%float; Count := 2;
                                      FirstTime := 1000; LastTime := 1010 |} ]})
        as Hscan by reflexivity.
      rewrite Hscan in Hgroup. apply lookup_singleton_Some in Hgroup as [_ <-]. done. }
    change (GroupByFields (config c) ++ UniqueFields (config c))
      with (@nil string) in Hts, Hval.
    split.
    + rewrite <-Havg.
      * apply Hts; [apply not_elem_of_nil|done].
      * simpl. unfold int64.InRange, int64.min, int64.max. lia.
    + apply Hval, not_elem_of_nil.
Defined.

(** *** Group keys that collide *)

(** C1 at a failing input. The two records share the window 960 and have
    both fields present, with different servers and different customers,
    yet both are keyed by the same string, so one pass puts them in one
    group and emits one object with the sum of their values. *)
Theorem colliding_keys :
  let c := NewCompressor (Some perCustomer) in
  windowOf c 1000 = windowOf c 1020 ∧
  present (GroupByFields (config c)) customerA = [("server", "web1")] ∧
  present (GroupByFields (config c)) customerB = [("server", "web1;unique_customer_id:a")] ∧
  present (UniqueFields (config c)) customerA = [("customer_id", "a;unique_customer_id:b")] ∧
  present (UniqueFields (config c)) customerB = [("customer_id", "b")] ∧
  recordKey c customerA =
    Some "window:960;server:web1;unique_customer_id:a;unique_customer_id:b" ∧
  recordKey c customerB = recordKey c customerA ∧
  emits c (jsondoc.Array [customerA; customerB])
    [ {[ "timestamp" := VInt64 1010; "bytes" := VFloat64 400;
         "server" := VString "web1";
         "customer_id" := VString "a;unique_customer_id:b" ]} ].
Proof. cbv zeta. split_and!; try reflexivity. by apply emits_listed. Qed.

(** ** CompressBatch: every interleaving fills the slots with returns of CompressJSON *)

Section BatchProperties.
Context {Result : Type} `{!gjson.Lib Result}.
Variable ParseBytes : bytes → Result.
Variable Marshal : list (gmap string Value) → option bytes * option error.
Implicit Types (c : Compressor) (st : batchState) (batches : list bytes).

Local Abbreviation step c := (batchStep ParseBytes Marshal c).
Local Abbreviation slotFor c := (slotFor ParseBytes Marshal c).
Local Abbreviation batchInv c batches st := (batchInv ParseBytes Marshal c batches st).

(** *** Termination: every step uses up one unit of work *)

Lemma step_remaining c st st' : step c st st' → remaining st = S (remaining st').
Proof.
  destruct 1; unfold remaining; simpl;
    rewrite ?sum_list_with_app; simpl; unfold weight; simpl; lia.
Qed.

Lemma nsteps_remaining c k st st' :
  nsteps (step c) k st st' → remaining st = k + remaining st'.
Proof.
  induction 1 as [|k st1 st2 st3 Hstep _ IH]; [done|].
  rewrite (step_remaining _ _ _ Hstep), IH. lia.
Qed.

Lemma batchDone_dec st : batchDone st ∨ ¬ batchDone st.
Proof.
  unfold batchDone. destruct (todo st), (running st);
    [by left|right; by intros [_ ?]|right; by intros [? _]..].
Qed.

(** *** Progress: with a worker, a run that is not done can go on *)

Lemma step_progress c st :
  (0 < Workers (config c))%Z → ¬ batchDone st → ∃ st', step c st st'.
Proof.
  intros Hw Hnd. destruct st as [td run res]. destruct run as [|[i d ph] run].
  - destruct td as [|[i b] td]; [by destruct Hnd|].
    eexists. apply step_spawn. unfold permits. simpl. lia.
  - destruct ph.
    + destruct (CompressJSON_returns ParseBytes Marshal c d) as [r Hr].
      eexists. apply (step_store _ _ c td [] i d run res r Hr).
    + eexists. apply (step_release _ _ c td [] i d run res).
    + eexists. apply (step_done _ _ c td [] i d run res).
Qed.

Lemma run_completes c st :
  (0 < Workers (config c))%Z → ∃ st', rtc (step c) st st' ∧ batchDone st'.
Proof.
  intros Hw. remember (remaining st) as n eqn:Hn. revert st Hn.
  induction n as [n IH] using lt_wf_ind. intros st ->.
  destruct (batchDone_dec st) as [Hdone|Hnd]; [by exists st|].
  destruct (step_progress c st Hw Hnd) as [st1 Hstep].
  destruct (IH (remaining st1)) with (st := st1) as (st' & Hrun & Hdone); [|done|].
  { rewrite (step_remaining _ _ _ Hstep). lia. }
  exists st'. split; [|done]. by eapply rtc_l.
Qed.

(** *** The slots *)

Lemma startedIn_app run1 run2 i :
  startedIn (run1 ++ run2) i ↔ startedIn run1 i ∨ startedIn run2 i.
Proof.
  unfold startedIn. split.
  - intros (d & [Hin|Hin]%elem_of_app); [left|right]; by exists d.
  - intros [(d & Hin)|(d & Hin)]; exists d; apply elem_of_app; [by left|by right].
Qed.

Lemma startedIn_cons g run i :
  startedIn (g :: run) i ↔ (idx g = i ∧ at_phase g = Started) ∨ startedIn run i.
Proof.
  unfold startedIn. setoid_rewrite elem_of_cons. split.
  - intros (d & [<-|Hin]); [by left|right; by exists d].
  - intros [[<- Hph]|(d & Hin)].
    + exists (data g). left. destruct g; simpl in *; by subst.
    + exists d. by right.
Qed.

Lemma startedIn_nil i : ¬ startedIn [] i.
Proof. intros (d & Hin). by apply elem_of_nil in Hin. Qed.

Lemma startedIn_idx run i : startedIn run i → i ∈ idx <$> run.
Proof. intros (d & Hin). apply list_elem_of_fmap. by exists (mkGoroutine i d Started). Qed.

Lemma batchInit_inv c batches : batchInv c batches (batchInit batches).
Proof.
  assert ((imap (λ i batch, (i, batch)) batches).*1 = seq 0 (length batches)) as Hfst.
  { rewrite fmap_imap. rewrite (imap_ext _ (λ i _, i)) by done.
    by rewrite imap_seq_0, list_fmap_id. }
  split; simpl.
  - by rewrite length_replicate.
  - rewrite app_nil_r, Hfst. apply NoDup_seq.
  - intros i d Hin. apply elem_of_lookup_imap in Hin as (j & b & [= -> ->] & Hb). done.
  - intros g Hin. by apply elem_of_nil in Hin.
  - intros i [Hin|Hin]; [|by apply startedIn_nil in Hin]. simpl in Hin.
    rewrite Hfst in Hin. apply elem_of_seq in Hin.
    apply lookup_replicate_2. lia.
  - intros i d Hi Hun. exfalso. apply Hun. left. simpl. rewrite Hfst.
    apply elem_of_seq. apply lookup_lt_Some in Hi. lia.
Qed.

Lemma store_length r i res : length (store r i res) = length res.
Proof.
  unfold store. destruct r as [compressed [err|]]; [done|].
  apply length_insert.
Qed.

Lemma store_other r i res j : i ≠ j → store r i res !! j = res !! j.
Proof.
  intros Hne. unfold store. destruct r as [compressed [err|]]; [done|].
  by apply list_lookup_insert_ne.
Qed.

Lemma store_slot r i res :
  res !! i = Some None → store r i res !! i = Some (slotOf r).
Proof.
  intros Hi. unfold store, slotOf. destruct r as [compressed [err|]]; [done|].
  apply list_lookup_insert_eq. by apply lookup_lt_Some in Hi.
Qed.

Lemma step_inv c batches st st' :
  step c st st' → batchInv c batches st → batchInv c batches st'.
Proof.
  destruct 1 as [i b td run res Hperm|td run1 i d run2 res r Hreturned
                |td run1 i d run2 res|td run1 i d run2 res];
    intros [Hlen Hnd Htodo Hrun Hun Hst]; simpl in *.
  - (* spawn *)
    assert (∀ j, unstored (mkBatchState td (run ++ [mkGoroutine i b Started]) res) j
                 ↔ unstored (mkBatchState ((i, b) :: td) run res) j) as Hsame.
    { intros j. unfold unstored. simpl.
      rewrite startedIn_app, startedIn_cons, elem_of_cons. simpl.
      pose proof (startedIn_nil j). intuition congruence. }
    split; simpl.
    + done.
    + rewrite fmap_app. simpl. rewrite app_assoc, <-Permutation_cons_append. done.
    + intros j d Hin. apply Htodo. by right.
    + intros g [Hin|Hin]%elem_of_app; [by apply Hrun|].
      apply list_elem_of_singleton in Hin as ->. simpl. apply Htodo. by left.
    + intros j Hj. by apply Hun, Hsame.
    + intros j d Hj Hnot. apply Hst; [done|]. by rewrite <-Hsame.
  - (* store *)
    rewrite fmap_app in Hnd. simpl in Hnd.
    apply NoDup_app in Hnd as (Hnd1 & Hdisj & Hnd2).
    apply NoDup_app in Hnd2 as (Hnd2 & Hdisj2 & Hnd3).
    apply NoDup_cons in Hnd3 as (Hi2 & Hnd3).
    assert (i ∉ td.*1) as Hi0.
    { intros Hin. apply (Hdisj i Hin). apply elem_of_app. right. by left. }
    assert (¬ startedIn run1 i) as Hi1.
    { intros Hin%startedIn_idx. apply (Hdisj2 i Hin). by left. }
    assert (¬ startedIn run2 i) as Hi2'.
    { by intros Hin%startedIn_idx. }
    assert (unstored (mkBatchState td (run1 ++ mkGoroutine i d Started :: run2) res) i)
      as Hwas.
    { right. simpl. rewrite startedIn_app, startedIn_cons. simpl. tauto. }
    assert (∀ j, unstored (mkBatchState td (run1 ++ mkGoroutine i d Stored :: run2)
                                        (store r i res)) j
                 ↔ j ≠ i ∧
                   unstored (mkBatchState td (run1 ++ mkGoroutine i d Started :: run2)
                                          res) j) as Hsame.
    { intros j. unfold unstored. simpl.
      rewrite !startedIn_app, !startedIn_cons. simpl.
      destruct (decide (j = i)) as [->|Hne]; intuition congruence. }
    split; simpl.
    + by rewrite store_length.
    + rewrite fmap_app. simpl. apply NoDup_app. split_and!; [done|done|].
      apply NoDup_app. split_and!; [done|done|]. by apply NoDup_cons.
    + done.
    + intros g [Hin|Hin]%elem_of_app; [apply Hrun, elem_of_app; by left|].
      apply elem_of_cons in Hin as [->|Hin]; simpl.
      * apply (Hrun (mkGoroutine i d Started)), elem_of_app. right. by left.
      * apply Hrun, elem_of_app. right. by right.
    + intros j [Hne Hj]%Hsame. rewrite store_other by done. by apply Hun.
    + intros j d' Hj Hnot. destruct (decide (i = j)) as [<-|Hne].
      * assert (d' = d) as ->.
        { pose proof (Hrun (mkGoroutine i d Started)) as Hd. simpl in Hd.
          rewrite Hd in Hj; [by injection Hj|]. apply elem_of_app. right. by left. }
        exists (slotOf r). split; [apply store_slot; by apply Hun|by exists r].
      * rewrite store_other by done. apply Hst; [done|].
        intros Hj'. apply Hnot, Hsame. split; [done|done].
  - (* release *)
    assert (∀ j, unstored (mkBatchState td (run1 ++ mkGoroutine i d Released :: run2) res) j
                 ↔ unstored (mkBatchState td (run1 ++ mkGoroutine i d Stored :: run2) res) j)
      as Hsame.
    { intros j. unfold unstored. simpl.
      rewrite !startedIn_app, !startedIn_cons. simpl. intuition congruence. }
    split; simpl.
    + done.
    + by rewrite fmap_app in *.
    + done.
    + intros g [Hin|Hin]%elem_of_app; [apply Hrun, elem_of_app; by left|].
      apply elem_of_cons in Hin as [->|Hin]; simpl.
      * apply (Hrun (mkGoroutine i d Stored)), elem_of_app. right. by left.
      * apply Hrun, elem_of_app. right. by right.
    + intros j Hj. by apply Hun, Hsame.
    + intros j d' Hj Hnot. apply Hst; [done|]. by rewrite <-Hsame.
  - (* done *)
    assert (∀ j, unstored (mkBatchState td (run1 ++ run2) res) j
                 ↔ unstored (mkBatchState td (run1 ++ mkGoroutine i d Released :: run2) res) j)
      as Hsame.
    { intros j. unfold unstored. simpl.
      rewrite !startedIn_app, !startedIn_cons. simpl. intuition congruence. }
    split; simpl.
    + done.
    + rewrite fmap_app in *. simpl in Hnd.
      apply NoDup_app in Hnd as (Hnd1 & Hdisj & Hnd2).
      apply NoDup_app in Hnd2 as (Hnd2 & Hdisj2 & Hnd3).
      apply NoDup_cons in Hnd3 as (Hi2 & Hnd3).
      apply NoDup_app. split_and!; [done| |].
      * intros x Hx Hin. apply (Hdisj x Hx).
        apply elem_of_app in Hin as [Hin|Hin]; apply elem_of_app; [by left|].
        right. by right.
      * apply NoDup_app. split_and!; [done| |done].
        intros x Hx Hin. apply (Hdisj2 x Hx). by right.
    + done.
    + intros g [Hin|Hin]%elem_of_app; apply Hrun, elem_of_app; [by left|].
      right. by right.
    + intros j Hj. by apply Hun, Hsame.
    + intros j d' Hj Hnot. apply Hst; [done|]. by rewrite <-Hsame.
Qed.

Lemma run_inv c batches st :
  rtc (step c) (batchInit batches) st → batchInv c batches st.
Proof.
  intros Hrun. revert st Hrun. apply (rtc_ind_r (R := step c)).
  - apply batchInit_inv.
  - intros st1 st2 _ Hstep Hinv. by eapply step_inv.
Qed.

Lemma done_results c batches st :
  batchInv c batches st → batchDone st →
  Forall2 (slotFor c) batches (results st).
Proof.
  intros [Hlen _ _ _ _ Hst] [Htd Hrun].
  apply Forall2_same_length_lookup_2; [done|].
  intros i d slot Hi Hslot. destruct (Hst i d Hi) as (slot' & Hslot' & Hfor).
  - unfold unstored. rewrite Htd, Hrun. simpl.
    intros [Hin|Hin]; [by apply elem_of_nil in Hin|by apply startedIn_nil in Hin].
  - congruence.
Qed.

(** *** Every filling of the slots is the result of a run *)

Lemma run_one c td i d res r :
  (0 < Workers (config c))%Z →
  CompressJSON ParseBytes Marshal c d r →
  rtc (step c) (mkBatchState ((i, d) :: td) [] res) (mkBatchState td [] (store r i res)).
Proof.
  intros Hw Hr.
  eapply rtc_l; [apply step_spawn; unfold permits; simpl; lia|].
  eapply rtc_l; [apply (step_store _ _ c td [] i d [] res r Hr)|].
  eapply rtc_l; [apply (step_release _ _ c td [] i d [] (store r i res))|].
  apply rtc_once. apply (step_done _ _ c td [] i d [] (store r i res)).
Qed.

Lemma run_sequential c (items : list (nat * bytes * (option bytes * option error))) res :
  (0 < Workers (config c))%Z →
  Forall (λ item, CompressJSON ParseBytes Marshal c item.1.2 item.2) items →
  rtc (step c) (mkBatchState items.*1 [] res)
      (mkBatchState [] [] (foldl (λ acc item, store item.2 item.1.1 acc) res items)).
Proof.
  intros Hw Hitems. revert res.
  induction Hitems as [|[[i d] r] items Hr _ IH]; intros res; simpl; [done|].
  etrans; [by apply run_one|]. apply IH.
Qed.

Lemma foldl_store_items batches rs k pre :
  length pre = k → length batches = length rs →
  foldl (λ acc item, store item.2 item.1.1 acc)
        (pre ++ replicate (length rs) None)
        (zip (imap (λ i (b : bytes), (k + i, b)) batches) rs) =
    pre ++ (slotOf <$> rs).
Proof.
  revert rs k pre. induction batches as [|b batches IH]; intros [|r rs] k pre Hk Hlen;
    try done.
  simpl in Hlen. injection Hlen as Hlen. cbn [imap zip zip_with foldl fst snd].
  assert (store r (k + 0) (pre ++ replicate (length (r :: rs)) None) =
            (pre ++ [slotOf r]) ++ replicate (length rs) None) as ->.
  { rewrite <-app_assoc. simpl. unfold store, slotOf.
    destruct r as [compressed [err|]]; [done|].
    rewrite insert_app_r_alt by lia.
    by replace (k + 0 - length pre) with 0 by lia. }
  rewrite (imap_ext _ (λ i b, (S k + i, b))) by (intros; simpl; f_equal; lia).
  rewrite (IH rs (S k) (pre ++ [slotOf r])); [|rewrite length_app; simpl; lia|done].
  by rewrite <-app_assoc.
Qed.

Lemma items_returned c batches rs k :
  Forall2 (CompressJSON ParseBytes Marshal c) batches rs →
  let items := zip (imap (λ i (b : bytes), (k + i, b)) batches) rs in
  items.*1 = imap (λ i (b : bytes), (k + i, b)) batches ∧
  Forall (λ item, CompressJSON ParseBytes Marshal c item.1.2 item.2) items.
Proof.
  intros Hrs. revert k. induction Hrs as [|b r batches rs Hr _ IH]; intros k; [done|].
  cbn [imap zip zip_with fmap list_fmap].
  rewrite (imap_ext _ (λ i b, (S k + i, b))) by (intros; simpl; f_equal; lia).
  destruct (IH (S k)) as [Hfst Hall]. cbv zeta in Hfst, Hall.
  split; [by rewrite Hfst|]. by constructor.
Qed.

Lemma slots_returned c batches res :
  Forall2 (slotFor c) batches res →
  ∃ rs, Forall2 (CompressJSON ParseBytes Marshal c) batches rs ∧ res = slotOf <$> rs.
Proof.
  induction 1 as [|d slot batches res (r & Hr & ->) _ (rs & Hrs & ->)].
  - by exists [].
  - exists (r :: rs). split; [by constructor|done].
Qed.

Lemma CompressBatch_sound c batches res :
  CompressBatchReturns ParseBytes Marshal c batches res →
  Forall2 (slotFor c) batches res.
Proof.
  intros (st & Hrun & Hdone & <-). apply done_results; [by apply run_inv|done].
Qed.

Lemma CompressBatch_complete c batches res :
  (0 < Workers (config c))%Z →
  Forall2 (slotFor c) batches res →
  CompressBatchReturns ParseBytes Marshal c batches res.
Proof.
  intros Hw (rs & Hrs & ->)%slots_returned.
  pose proof (Forall2_length _ _ _ Hrs) as Hlen.
  destruct (items_returned c batches rs 0 Hrs) as [Hfst Hall].
  exists (mkBatchState [] [] (slotOf <$> rs)). split; [|done].
  pose proof (run_sequential c _ (replicate (length rs) None) Hw Hall) as Hrun.
  rewrite Hfst in Hrun.
  pose proof (foldl_store_items batches rs 0 [] eq_refl Hlen) as Hfold.
  change ([] ++ replicate (length rs) None) with (replicate (length rs) (@None bytes))
    in Hfold.
  rewrite Hfold in Hrun. unfold batchInit. rewrite Hlen. exact Hrun.
Qed.

(** *** The semaphore: never more than [Workers] permits are held *)

Lemma step_permits c st st' :
  step c st st' →
  (permits st ≤ Workers (config c))%Z → (permits st' ≤ Workers (config c))%Z.
Proof.
  destruct 1 as [i b td run res Hperm|td run1 i d run2 res
                |td run1 i d run2 res|td run1 i d run2 res];
    unfold permits in *; simpl in *;
    rewrite ?filter_app, ?length_app in *;
    rewrite ?filter_cons in *; simpl in *; rewrite ?filter_nil; simpl; lia.
Qed.

Lemma run_permits c batches st :
  (0 ≤ Workers (config c))%Z →
  rtc (step c) (batchInit batches) st → (permits st ≤ Workers (config c))%Z.
Proof.
  intros Hw Hrun. revert st Hrun. apply (rtc_ind_r (R := step c)).
  - done.
  - intros st1 st2 _ Hstep Hle. by eapply step_permits.
Qed.

Lemma NewCompressor_workers (cfg : option Config) :
  (0 < Workers (config (NewCompressor cfg)))%Z.
Proof.
  destruct cfg as [cfg|]; [|done].
  rewrite NewCompressor_resolved. apply resolved_populated.
Qed.

(** C8. For a compressor made by [NewCompressor] and any batch, some run of
    [CompressBatch] returns; every run that has started can be completed,
    whatever its items do, and no run takes more than four steps per item;
    and whatever the interleaving, the sequence returned has the length of
    the batch and holds at each index what a call of [CompressJSON] on the
    payload at that index returned as its output when it returned no error,
    and nil when it returned one, as it does for a payload that is not a
    JSON array. The sequences that may be returned are exactly those. *)
Theorem CompressBatch_runs (cfg : option Config) batches :
  let c := NewCompressor cfg in
  (∃ res, CompressBatchReturns ParseBytes Marshal c batches res) ∧
  (∀ st, rtc (step c) (batchInit batches) st →
         ∃ st', rtc (step c) st st' ∧ batchDone st') ∧
  (∀ k st, nsteps (step c) k (batchInit batches) st → k ≤ 4 * length batches) ∧
  (∀ res, CompressBatchReturns ParseBytes Marshal c batches res ↔
     Forall2 (λ data slot,
                ∃ r, CompressJSON ParseBytes Marshal c data r ∧
                     slot = match r with
                            | (compressed, None) => compressed
                            | (_, Some err) => None
                            end)
             batches res) ∧
  (∀ res, CompressBatchReturns ParseBytes Marshal c batches res →
     length res = length batches ∧
     (∀ i data, batches !! i = Some data →
        ∃ r, CompressJSON ParseBytes Marshal c data r ∧
             res !! i =
               Some match r with
                    | (compressed, None) => compressed
                    | (_, Some err) => None
                    end) ∧
     (∀ i data, batches !! i = Some data →
        gjson.IsArray (ParseBytes data) = false → res !! i = Some None)).
Proof.
  intros c. pose proof (NewCompressor_workers cfg) as Hw. fold c in Hw.
  split_and!.
  - destruct (run_completes c (batchInit batches) Hw) as (st & Hrun & Hdone).
    by exists (results st), st.
  - intros st _. by apply run_completes.
  - intros k st Hrun. apply nsteps_remaining in Hrun.
    unfold remaining in Hrun at 1. simpl in Hrun. rewrite length_imap in Hrun. lia.
  - intros res. split; [apply CompressBatch_sound|by apply CompressBatch_complete].
  - intros res Hres%CompressBatch_sound.
    assert (∀ i data, batches !! i = Some data →
              ∃ r, CompressJSON ParseBytes Marshal c data r ∧
                   res !! i = Some (slotOf r)) as Hslots.
    { intros i data Hi.
      destruct (Forall2_lookup_l _ _ _ _ _ Hres Hi) as (slot & Hslot & r & Hr & ->).
      by exists r. }
    split_and!; [symmetry; by eapply Forall2_length|done|].
    intros i data Hi Harr. destruct (Hslots i data Hi) as (r & Hr & ->).
    by apply CompressJSON_expected_array in Hr as ->.
Qed.
End BatchProperties.

(** With a marshaller that only counts, what [CompressJSON] returns on an
    array is decided by the number of groups. *)
Lemma CompressJSON_marshalCount `{!gjson.Lib Result} (parse : bytes → Result) c data r :
  gjson.IsArray (parse data) = true →
  CompressJSON parse marshalCount c data r ↔
    r = (Some (replicate (size (scan c (parse data))) Byte.x00), None).
Proof.
  intros Harr. rewrite CompressJSON_array by done. unfold marshalCount. split.
  - intros (order & Horder & ->). by rewrite (length_output c _ _ Horder).
  - intros ->. exists (map_to_list (scan c (parse data))).
    split; [apply ranges_map_to_list|].
    by rewrite (length_output c _ _ (ranges_map_to_list _)).
Qed.

(** The batch of the repository's test: two arrays and a payload that is
    not one. *)
Lemma CompressBatch_example :
  let parse :=
    parseFrom [tenAndTwenty;
               jsondoc.Array [record [("ts", num 2000); ("val", num 30)];
                              record [("ts", num 2010); ("val", num 40)]];
               jsondoc.Scalar (str "invalid json")] in
  let c := NewCompressor (Some sumPerMinute) in
  ∀ res,
    CompressBatchReturns parse marshalCount c [payload 0; payload 1; payload 2] res ↔
    res = [Some [Byte.x00]; Some [Byte.x00]; None].
Proof.
  intros parse c res.
  assert (∀ i r, i < 2 → CompressJSON parse marshalCount c (payload i) r ↔
                         r = (Some [Byte.x00], None)) as Harrays.
  { intros i r Hi.
    destruct i as [|[|i]]; [..|lia]; by rewrite CompressJSON_marshalCount. }
  split.
  - intros Hres%CompressBatch_sound.
    apply Forall2_cons_inv_l in Hres as (s0 & res0 & (r0 & Hr0 & ->) & Hres & ->).
    apply Forall2_cons_inv_l in Hres as (s1 & res1 & (r1 & Hr1 & ->) & Hres & ->).
    apply Forall2_cons_inv_l in Hres as (s2 & res2 & (r2 & Hr2 & ->) & Hres & ->).
    apply Forall2_nil_inv_l in Hres as ->.
    apply (Harrays 0) in Hr0 as ->; [|lia]. apply (Harrays 1) in Hr1 as ->; [|lia].
    by apply CompressJSON_expected_array in Hr2 as ->.
  - intros ->. apply CompressBatch_complete; [done|].
    repeat constructor.
    + exists (Some [Byte.x00], None). split; [by apply (Harrays 0); [lia|]|done].
    + exists (Some [Byte.x00], None). split; [by apply (Harrays 1); [lia|]|done].
    + eexists. split; [by apply CompressJSON_error|done].
Qed.

(** ** The repository's tests, run on the model

    The inputs and expectations of [compressor_test.go] and
    [compressor_coverage_test.go]. The groups of a pass are given as the map
    from group key to group, and the emitted objects as the map from group
    key to object, or as the objects that are emitted whatever the order of
    the loop over the groups. *)

(** [TestCompressor_UniqueFields]: same server, two customers, two rows. *)
Example test_UniqueFields :
  let c := NewCompressor (Some (setWorkers perCustomer 0)) in
  let input :=
    jsondoc.Array
      [record [("timestamp", num 1000); ("bytes", num 100);
               ("server", str "web1"); ("customer_id", str "cust1")];
       record [("timestamp", num 1020); ("bytes", num 200);
               ("server", str "web1"); ("customer_id", str "cust1")];
       record [("timestamp", num 1000); ("bytes", num 300);
               ("server", str "web1"); ("customer_id", str "cust2")];
       record [("timestamp", num 1020); ("bytes", num 400);
               ("server", str "web1"); ("customer_id", str "cust2")]] in
  emit c <$> scan c input =
    {[ "window:960;server:web1;unique_customer_id:cust1" :=
         {[ "timestamp" := VInt64 1010; "bytes" := VFloat64 300;
            "server" := VString "web1"; "customer_id" := VString "cust1" ]};
       "window:960;server:web1;unique_customer_id:cust2" :=
         {[ "timestamp" := VInt64 1010; "bytes" := VFloat64 700;
            "server" := VString "web1"; "customer_id" := VString "cust2" ]} ]}.
Proof. reflexivity. Qed.

(** [TestCompressor_TimeWindows]: six records in four windows of a minute. *)
Example test_TimeWindows :
  let c := NewCompressor (Some (setValueFields sumPerMinute ["value"])) in
  let input :=
    jsondoc.Array
      [record [("ts", num 1000); ("value", num 1)];
       record [("ts", num 1010); ("value", num 2)];
       record [("ts", num 1060); ("value", num 3)];
       record [("ts", num 1070); ("value", num 4)];
       record [("ts", num 1120); ("value", num 5)];
       record [("ts", num 1150); ("value", num 6)]] in
  emit c <$> scan c input =
    {[ "window:960" := {[ "ts" := VInt64 1005; "value" := VFloat64 3 ]};
       "window:1020" := {[ "ts" := VInt64 1065; "value" := VFloat64 7 ]};
       "window:1080" := {[ "ts" := VInt64 1120; "value" := VFloat64 5 ]};
       "window:1140" := {[ "ts" := VInt64 1150; "value" := VFloat64 6 ]} ]}.
Proof. reflexivity. Qed.

(** [TestCompressJSON_NonObjectInArray]: elements that are not objects are
    passed over. *)
Example test_NonObjectInArray :
  let c := NewCompressor None in
  let input :=
    jsondoc.Array
      [jsondoc.Scalar (num 1); jsondoc.Scalar (str "string");
       record [("timestamp", num 1000); ("value", num 10)];
       jsondoc.Scalar jsondoc.JNull] in
  emits c input [ {[ "timestamp" := VInt64 1000; "value" := VFloat64 10 ]} ].
Proof. by apply emits_listed. Qed.

(** [TestCompressJSON_UpdateFirstLastTime]: the timestamps arrive out of
    order. *)
Example test_UpdateFirstLastTime :
  let c := NewCompressor (Some (setTimeWindow (setValueFields sumPerMinute ["v"])
                                              (300 * time.Second))) in
  let input :=
    jsondoc.Array
      [record [("ts", num 1050); ("v", num 10)];
       record [("ts", num 1000); ("v", num 20)];
       record [("ts", num 1100); ("v", num 30)]] in
  scan c input =
    {[ "window:900" := {| Window := 900; Tags := ∅; Values := [10; 20; 30]%float;
                          Count := 3; FirstTime := 1000; LastTime := 1100 |} ]} ∧
  emits c input [ {[ "ts" := VInt64 1050; "v" := VFloat64 60 ]} ].
Proof. split; [reflexivity|by apply emits_listed]. Qed.

(** [TestAggregation_Methods]: the methods ["first"] and ["last"] also choose
    the emitted timestamp. *)
Example test_Aggregation_Methods :
  let c method :=
    NewCompressor (Some (setTimeWindow (setAggregationMethod sumPerMinute method)
                                       (120 * time.Second))) in
  let input :=
    jsondoc.Array
      [record [("ts", num 1000); ("val", num 5)];
       record [("ts", num 1005); ("val", num 2)];
       record [("ts", num 1010); ("val", num 8)];
       record [("ts", num 1015); ("val", num 1)]] in
  emits (c "min") input [ {[ "ts" := VInt64 1007; "val" := VFloat64 1 ]} ] ∧
  emits (c "max") input [ {[ "ts" := VInt64 1007; "val" := VFloat64 8 ]} ] ∧
  emits (c "count") input [ {[ "ts" := VInt64 1007; "val" := VFloat64 4 ]} ] ∧
  emits (c "first") input [ {[ "ts" := VInt64 1000; "val" := VFloat64 5 ]} ] ∧
  emits (c "last") input [ {[ "ts" := VInt64 1015; "val" := VFloat64 1 ]} ] ∧
  emits (c "unknown") input [ {[ "ts" := VInt64 1007; "val" := VFloat64 16 ]} ].
Proof. split_and!; by apply emits_listed. Qed.

(** [TestCompressJSON_MultipleValueFields]: two value fields fall into one
    sequence and are emitted under ["value"]. *)
Example test_MultipleValueFields :
  let c := NewCompressor (Some (setValueFields sumPerMinute ["cpu"; "mem"])) in
  let input :=
    jsondoc.Array
      [record [("ts", num 1000); ("cpu", num 50); ("mem", num 70)];
       record [("ts", num 1010); ("cpu", num 60); ("mem", num 75)]] in
  Values <$> scan c input = {[ "window:960" := [50; 70; 60; 75]%float ]} ∧
  emits c input [ {[ "ts" := VInt64 1005; "value" := VFloat64 255 ]} ].
Proof. split; [reflexivity|by apply emits_listed]. Qed.

(** * Further properties *)

(** ** The order of floats

    [<] on [float64] is irreflexive and transitive, not-a-number included:
    every comparison with it is false. *)

Lemma SFltb_irrefl x : SFltb x x = false.
Proof.
  unfold SFltb, SFcompare. destruct x as [[]| [] | |[] m e]; try reflexivity.
  - rewrite Z.compare_refl, Pos.compare_cont_refl. reflexivity.
  - rewrite Z.compare_refl, Pos.compare_cont_refl. reflexivity.
Qed.

Lemma SFltb_trans x y z : SFltb x y = true → SFltb y z = true → SFltb x z = true.
Proof.
  unfold SFltb, SFcompare.
  destruct x as [[]|[]| |[] mx ex], y as [[]|[]| |[] my ey], z as [[]|[]| |[] mz ez];
    try reflexivity; try discriminate;
    destruct (Z.compare_spec ex ey), (Z.compare_spec ey ez), (Z.compare_spec ex ez);
    try reflexivity; try discriminate; try lia; subst;
    rewrite ?Pos.compare_cont_spec; simpl;
    destruct (Pos.compare_spec mx my), (Pos.compare_spec my mz), (Pos.compare_spec mx mz);
    simpl; try reflexivity; try discriminate; try lia.
Qed.

Lemma float_ltb_irrefl (x : float) : (x <? x)%float = false.
Proof. rewrite ltb_spec. apply SFltb_irrefl. Qed.

Lemma float_ltb_trans (x y z : float) :
  (x <? y)%float = true → (y <? z)%float = true → (x <? z)%float = true.
Proof. rewrite !ltb_spec. apply SFltb_trans. Qed.

Lemma float_not_ltb_trans (x y z : float) :
  (x <? z)%float = false → (y <? z)%float = true → (x <? y)%float = false.
Proof.
  intros Hxz Hyz. destruct (x <? y)%float eqn:Hxy; [|done].
  by rewrite (float_ltb_trans x y z Hxy Hyz) in Hxz.
Qed.

Lemma zero_plus (v : float) :
  Prim2SF v ≠ S754_zero true → (0 + v)%float = v.
Proof.
  intros Hv. apply Prim2SF_inj. rewrite add_spec.
  change (Prim2SF 0) with (S754_zero false).
  unfold SF64add, SFadd. destruct (Prim2SF v) as [[]|[]| |]; done.
Qed.

Lemma negative_zero (v : float) :
  Prim2SF v = S754_zero true ↔ v = (-0)%float.
Proof.
  split; [|by intros ->].
  intros Hv. apply Prim2SF_inj. by rewrite Hv.
Qed.

(** ** The aggregator on any values *)

Lemma foldl_minVal_spec (acc : float) (rest : list float) :
  let m := foldl (λ minVal v, if (v <? minVal)%float then v else minVal) acc rest in
  m ∈ acc :: rest ∧
  (∀ x, (x <? acc)%float = false → (x <? m)%float = false) ∧
  (∀ v, v ∈ rest → (v <? m)%float = false).
Proof.
  revert acc. induction rest as [|a rest IH]; intros acc; simpl.
  - split; [by left|]. split; [done|]. intros v Hv. by apply elem_of_nil in Hv.
  - destruct (IH (if (a <? acc)%float then a else acc)) as (Hin & Hacc & Hrest).
    split_and!.
    + apply elem_of_cons in Hin as [->|Hin]; [|right; by right].
      destruct (a <? acc)%float; [right; by left|by left].
    + intros x Hx. apply Hacc. destruct (a <? acc)%float eqn:Ha; [|done].
      by apply (float_not_ltb_trans x a acc).
    + intros v [->|Hv]%elem_of_cons; [|by apply Hrest].
      apply Hacc. destruct (a <? acc)%float eqn:Ha; [apply float_ltb_irrefl|done].
Qed.

Lemma foldl_maxVal_spec (acc : float) (rest : list float) :
  let m := foldl (λ maxVal v, if (maxVal <? v)%float then v else maxVal) acc rest in
  m ∈ acc :: rest ∧
  (∀ x, (acc <? x)%float = false → (m <? x)%float = false) ∧
  (∀ v, v ∈ rest → (m <? v)%float = false).
Proof.
  revert acc. induction rest as [|a rest IH]; intros acc; simpl.
  - split; [by left|]. split; [done|]. intros v Hv. by apply elem_of_nil in Hv.
  - destruct (IH (if (acc <? a)%float then a else acc)) as (Hin & Hacc & Hrest).
    split_and!.
    + apply elem_of_cons in Hin as [->|Hin]; [|right; by right].
      destruct (acc <? a)%float; [right; by left|by left].
    + intros x Hx. apply Hacc. destruct (acc <? a)%float eqn:Ha; [|done].
      destruct (a <? x)%float eqn:Hax; [|done].
      by rewrite (float_ltb_trans acc a x Ha Hax) in Hx.
    + intros v [->|Hv]%elem_of_cons; [|by apply Hrest].
      apply Hacc. destruct (acc <? a)%float eqn:Ha; [apply float_ltb_irrefl|done].
Qed.

(** The aggregate of ["min"] on values that are not empty is one of the
    values and no value is below it; the aggregate of ["max"] is one of the
    values and no value is above it. This holds with not-a-number among the
    values, which is neither below nor above anything. *)
Theorem aggregate_min_max (c : Compressor) (values : list float) :
  let lo := aggregate (withMethod c "min") values in
  let hi := aggregate (withMethod c "max") values in
  (values ≠ [] → lo ∈ values ∧ hi ∈ values) ∧
  (∀ v, v ∈ values → (v <? lo)%float = false ∧ (hi <? v)%float = false).
Proof.
  destruct values as [|v0 rest]; cbv zeta.
  - split; [done|]. intros v Hv. by apply elem_of_nil in Hv.
  - change (aggregate (withMethod c "min") (v0 :: rest)) with
      (foldl (λ minVal v, if (v <? minVal)%float then v else minVal) v0 rest).
    change (aggregate (withMethod c "max") (v0 :: rest)) with
      (foldl (λ maxVal v, if (maxVal <? v)%float then v else maxVal) v0 rest).
    destruct (foldl_minVal_spec v0 rest) as (Hlo & Hlo0 & Hlor).
    destruct (foldl_maxVal_spec v0 rest) as (Hhi & Hhi0 & Hhir).
    split; [done|]. intros v [->|Hv]%elem_of_cons.
    + split; [apply Hlo0|apply Hhi0]; apply float_ltb_irrefl.
    + split; [by apply Hlor|by apply Hhir].
Qed.

(** On a single value the aggregate of ["count"] is 1 and that of ["min"],
    ["max"], ["first"] and ["last"] is the value. The aggregate of ["sum"]
    and of every name that falls back to it is [0 + v]: the value, except
    that negative zero becomes zero. *)
Theorem aggregate_single (c : Compressor) (method : string) (v : float) :
  let r := aggregate (withMethod c method) [v] in
  (method = "count" → r = 1%float) ∧
  (method ∈ ["min"; "max"; "first"; "last"] → r = v) ∧
  (method ∉ ["count"; "min"; "max"; "first"; "last"; "avg"; "mean"] →
     (v ≠ (-0)%float → r = v) ∧ (v = (-0)%float → r = 0%float)).
Proof.
  cbv zeta. split_and!.
  - by intros ->.
  - intros Hm. repeat (apply elem_of_cons in Hm as [->|Hm]; [reflexivity|]).
    by apply elem_of_nil in Hm.
  - intros Hm.
    assert (aggregate (withMethod c method) [v] = (0 + v)%float) as ->.
    { unfold aggregate, withMethod; simpl.
      repeat case_decide; try reflexivity; exfalso; apply Hm;
        destruct_or?; subst method; repeat first [by left|right]. }
    split.
    + intros Hv. apply zero_plus. by rewrite negative_zero.
    + by intros ->.
Qed.

(** ** The groups of a pass, by their records *)

Lemma wrap64_add_wrap a b : int64.wrap64 (int64.wrap64 a + b) = int64.wrap64 (a + b).
Proof.
  unfold int64.wrap64. f_equal.
  replace ((a + 2 ^ 63) `mod` 2 ^ 64 - 2 ^ 63 + b + 2 ^ 63)%Z
    with ((a + 2 ^ 63) `mod` 2 ^ 64 + b)%Z by lia.
  rewrite Zplus_mod_idemp_l. f_equal. lia.
Qed.

Lemma foldl_min_spec (x : Z) (l : list Z) :
  foldl Z.min x l ∈ x :: l ∧ ∀ y, y ∈ x :: l → (foldl Z.min x l ≤ y)%Z.
Proof.
  revert x. induction l as [|a l IH]; intros x; simpl.
  - split; [by left|]. intros y ->%list_elem_of_singleton. lia.
  - destruct (IH (Z.min x a)) as [Hin Hle]. split.
    + apply elem_of_cons in Hin as [Heq|Hin]; [|right; by right].
      rewrite Heq. destruct (Z.min_spec x a) as [[_ ->]|[_ ->]]; [by left|right; by left].
    + intros y Hy.
      assert (foldl Z.min (Z.min x a) l ≤ Z.min x a)%Z as Hm by (apply Hle; by left).
      apply elem_of_cons in Hy as [->|[->|Hy]%elem_of_cons]; [lia|lia|].
      apply Hle. by right.
Qed.

Lemma foldl_max_spec (x : Z) (l : list Z) :
  foldl Z.max x l ∈ x :: l ∧ ∀ y, y ∈ x :: l → (y ≤ foldl Z.max x l)%Z.
Proof.
  revert x. induction l as [|a l IH]; intros x; simpl.
  - split; [by left|]. intros y ->%list_elem_of_singleton. lia.
  - destruct (IH (Z.max x a)) as [Hin Hle]. split.
    + apply elem_of_cons in Hin as [Heq|Hin]; [|right; by right].
      rewrite Heq. destruct (Z.max_spec x a) as [[_ ->]|[_ ->]]; [right; by left|by left].
    + intros y Hy.
      assert (Z.max x a ≤ foldl Z.max (Z.max x a) l)%Z as Hm by (apply Hle; by left).
      apply elem_of_cons in Hy as [->|[->|Hy]%elem_of_cons]; [lia|lia|].
      apply Hle. by right.
Qed.

Lemma quot_mul_near (t w : Z) :
  w ≠ 0%Z →
  (Z.abs (t - Z.quot t w * w) < Z.abs w)%Z ∧
  (0 < w → 0 ≤ t → Z.quot t w * w ≤ t < Z.quot t w * w + w)%Z.
Proof.
  intros Hw. pose proof (Z.quot_rem' t w) as Hqr.
  pose proof (Z.rem_bound_abs t w Hw) as Habs.
  replace (t - Z.quot t w * w)%Z with (Z.rem t w) by lia.
  split; [lia|]. intros Hpos Ht. pose proof (Z.rem_bound_pos t w Ht Hpos). lia.
Qed.

Lemma average_between (first last : Z) :
  (first ≤ last)%Z → (first ≤ Z.quot (first + last) 2 ≤ last)%Z.
Proof.
  intros Hle. pose proof (Z.quot_rem' (first + last) 2) as Hqr.
  destruct (Z_le_gt_dec 0 (first + last)).
  - pose proof (Z.rem_bound_pos (first + last) 2). lia.
  - pose proof (Z.rem_bound_pos_neg (first + last) 2). lia.
Qed.

Section PassContent.
Context {Result : Type} `{!gjson.Lib Result}.
Implicit Types (c : Compressor) (value : Result) (result : Result).

Lemma appendValues_app fields value values :
  appendValues fields value values = values ++ appendValues fields value [].
Proof.
  revert values. induction fields as [|f fields IH]; intros values; simpl.
  - by rewrite app_nil_r.
  - destruct (gjson.Exists (gjson.Get value f)); [|done].
    rewrite IH, (IH [_]). by rewrite <-app_assoc.
Qed.

(** The values of a record are the numbers of its value fields that exist,
    in the order of the configuration. *)
Lemma recordValues_fields c value :
  recordValues c value =
    gjson.Float <$>
      filter (λ val, gjson.Exists val = true)
             (gjson.Get value <$> ValueFields (config c)).
Proof.
  unfold recordValues. induction (ValueFields (config c)) as [|f fields IH]; [done|].
  simpl. rewrite filter_cons.
  destruct (gjson.Exists (gjson.Get value f)) eqn:Hex.
  - rewrite appendValues_app, IH. by rewrite decide_True.
  - by rewrite decide_False.
Qed.

Lemma foldl_joinGroup_content c l (g : Group) (n : Z) :
  Count g = int64.wrap64 n →
  foldl (joinGroup c) (Some g) l =
    Some {| Window := Window g; Tags := Tags g;
            Values := Values g ++ concat (recordValues c <$> l);
            Count := int64.wrap64 (n + Z.of_nat (length l));
            FirstTime := foldl Z.min (FirstTime g) (recordTimestamp c <$> l);
            LastTime := foldl Z.max (LastTime g) (recordTimestamp c <$> l) |}.
Proof.
  revert g n. induction l as [|value l IH]; intros g n Hn.
  - simpl. rewrite app_nil_r, Z.add_0_r, <-Hn. by destruct g.
  - cbn [foldl]. unfold joinGroup at 2. cbv zeta. cbn [default from_option].
    rewrite (IH _ (n + 1)%Z).
    + unfold updateGroup. cbn [Window Tags Values Count FirstTime LastTime].
      fold (recordTimestamp c value).
      rewrite appendValues_app. fold (recordValues c value).
      f_equal. unfold id.
      f_equal; rewrite ?fmap_cons, ?concat_cons, ?length_cons; cbn [foldl].
      * by rewrite <-app_assoc.
      * f_equal. lia.
      * f_equal. unfold Z.min. case_decide;
          destruct (Z.compare_spec (FirstTime g) (recordTimestamp c value)); lia.
      * f_equal. unfold Z.max. case_decide;
          destruct (Z.compare_spec (LastTime g) (recordTimestamp c value)); lia.
    + unfold updateGroup, id. cbn [Count]. rewrite Hn. apply wrap64_add_wrap.
Qed.

Lemma foldl_joinGroup_groupOf c l : foldl (joinGroup c) None l = groupOf c l.
Proof.
  destruct l as [|first rest]; [done|].
  cbn [foldl]. unfold joinGroup at 2. cbv zeta. cbn [default from_option].
  rewrite (foldl_joinGroup_content c rest _ 1).
  - unfold groupOf, updateGroup, newGroup.
    cbn [Window Tags Values Count FirstTime LastTime].
    fold (recordTimestamp c first). fold (recordValues c first).
    f_equal. f_equal.
    + f_equal. rewrite length_cons. lia.
    + f_equal. case_decide; lia.
    + f_equal. case_decide; lia.
  - reflexivity.
Qed.

Lemma scan_lookup_groupOf c result key :
  scan c result !! key = groupOf c (members c result key).
Proof.
  unfold scan, members.
  by rewrite foldl_processRecord_lookup, lookup_empty, foldl_joinGroup_groupOf.
Qed.

Lemma captureTags_lookup fields value (tags : gmap string string) name :
  captureTags fields value tags !! name =
    if decide (name ∈ fields ∧ gjson.Exists (gjson.Get value name) = true)
    then Some (gjson.String (gjson.Get value name))
    else tags !! name.
Proof.
  revert tags. induction fields as [|f fields IH]; intros tags; simpl.
  - done.
  - rewrite IH. destruct (decide (name ∈ fields ∧ _)) as [[Hin Hex]|Hno].
    + rewrite decide_True; [done|]. split; [by right|done].
    + destruct (decide (name = f)) as [->|Hne].
      * destruct (gjson.Exists (gjson.Get value f)) eqn:Hex.
        -- rewrite lookup_insert_eq, decide_True; [done|]. split; [by left|done].
        -- rewrite decide_False; [done|]. by intros [_ ?].
      * assert (¬ (name ∈ f :: fields ∧ gjson.Exists (gjson.Get value name) = true)).
        { intros [[->|Hin]%elem_of_cons Hex]; [done|]. by apply Hno. }
        rewrite decide_False by done.
        destruct (gjson.Exists (gjson.Get value f)); [|done].
        by rewrite lookup_insert_ne.
Qed.

Lemma newTags_lookup c value name :
  captureTags (UniqueFields (config c)) value
    (captureTags (GroupByFields (config c)) value ∅) !! name =
    if decide (name ∈ GroupByFields (config c) ++ UniqueFields (config c) ∧
               gjson.Exists (gjson.Get value name) = true)
    then Some (gjson.String (gjson.Get value name))
    else None.
Proof.
  rewrite !captureTags_lookup, lookup_empty.
  repeat case_decide; try done; exfalso;
    rewrite elem_of_app in *; tauto.
Qed.

(** The group one pass leaves at a key is made by the records of that key
    and by nothing else: there is none when no record has the key, and
    otherwise it has the window and the tags of the first such record (a tag
    for each configured group-by or unique field that exists on it), the
    values of all of them in the order of the array, their number as its
    count, and the least and the greatest of their timestamps. *)
Theorem group_of_members c result key :
  match members c result key with
  | [] => scan c result !! key = None
  | first :: rest =>
      ∃ group,
        scan c result !! key = Some group ∧
        Window group = windowOf c (recordTimestamp c first) ∧
        (∀ name,
           Tags group !! name =
             if decide (name ∈ GroupByFields (config c) ++ UniqueFields (config c) ∧
                        gjson.Exists (gjson.Get first name) = true)
             then Some (gjson.String (gjson.Get first name))
             else None) ∧
        Values group = concat (recordValues c <$> first :: rest) ∧
        Count group = int64.wrap64 (Z.of_nat (length (first :: rest))) ∧
        FirstTime group =
          foldl Z.min (recordTimestamp c first) (recordTimestamp c <$> rest) ∧
        LastTime group =
          foldl Z.max (recordTimestamp c first) (recordTimestamp c <$> rest) ∧
        (∀ value, value ∈ first :: rest →
           (FirstTime group ≤ recordTimestamp c value ≤ LastTime group)%Z)
  end.
Proof.
  rewrite scan_lookup_groupOf.
  destruct (members c result key) as [|first rest]; [done|].
  eexists. split; [done|]. cbn [Window Tags Values Count FirstTime LastTime].
  split_and!; try done.
  - intros name. apply newTags_lookup.
  - intros value Hin.
    destruct (foldl_min_spec (recordTimestamp c first) (recordTimestamp c <$> rest))
      as [_ Hmin].
    destruct (foldl_max_spec (recordTimestamp c first) (recordTimestamp c <$> rest))
      as [_ Hmax].
    assert (recordTimestamp c value ∈
              recordTimestamp c first :: (recordTimestamp c <$> rest)) as Ht.
    { change (recordTimestamp c value ∈ recordTimestamp c <$> first :: rest).
      apply list_elem_of_fmap. by exists value. }
    split; [by apply Hmin|by apply Hmax].
Qed.
End PassContent.

Section PassCounts.
Context {Result : Type} `{!gjson.Lib Result}.
Implicit Types (c : Compressor) (value : Result) (result : Result).

Lemma members_nil c result key :
  members c result key = [] ↔ key ∉ omap (recordKey c) (gjson.ForEach result).
Proof.
  unfold members. rewrite list_elem_of_omap. split.
  - intros Hnil (value & Hin & Hkey).
    by apply (filter_nil_not_elem_of _ _ value Hnil Hkey).
  - intros Hno. destruct (filter _ _) as [|value l] eqn:Hf; [done|].
    exfalso. apply Hno. exists value.
    assert (value ∈ filter (λ value, recordKey c value = Some key)
                      (gjson.ForEach result)) as Hin by (rewrite Hf; by left).
    apply list_elem_of_filter in Hin as [Hkey Hin]. done.
Qed.

Lemma scan_dom c result :
  dom (scan c result) = list_to_set (omap (recordKey c) (gjson.ForEach result)).
Proof.
  apply set_eq. intros key.
  rewrite elem_of_dom, scan_lookup_groupOf, elem_of_list_to_set.
  destruct (members c result key) as [|first rest] eqn:Hm.
  - apply members_nil in Hm. split; [by intros []|done].
  - split; [|by eexists]. intros _.
    destruct (decide (key ∈ omap (recordKey c) (gjson.ForEach result))) as [|Hno]; [done|].
    apply members_nil in Hno. congruence.
Qed.

Lemma remove_dups_shorter {A} `{EqDecision A} (l : list A) :
  length (remove_dups l) ≤ length l.
Proof.
  induction l as [|x l IH]; simpl; [done|].
  destruct (decide_rel elem_of x l); simpl; lia.
Qed.

Lemma omap_shorter {A B} (f : A → option B) (l : list A) :
  length (omap f l) ≤ length l.
Proof.
  induction l as [|x l IH]; csimpl; [done|]. destruct (f x); csimpl; lia.
Qed.

(** One pass emits, in whatever order the loop takes over the groups, one
    object for each distinct key among the records of the array, so never
    more objects than the array has elements, and it has a group at a key
    exactly when some element of the array has that key. *)
Theorem one_object_per_key c result :
  (∀ order, ranges (scan c result) order →
     length (output c order) =
       length (remove_dups (omap (recordKey c) (gjson.ForEach result))) ∧
     length (output c order) ≤ length (gjson.ForEach result)) ∧
  ∀ key, is_Some (scan c result !! key) ↔
         ∃ value, value ∈ gjson.ForEach result ∧ recordKey c value = Some key.
Proof.
  split.
  - intros order Horder.
    assert (length (output c order) =
              length (remove_dups (omap (recordKey c) (gjson.ForEach result)))) as Hlen.
    { rewrite (length_output c _ _ Horder), <-size_dom, scan_dom.
      rewrite <-(size_list_to_set (C := gset string) (remove_dups _))
        by apply NoDup_remove_dups.
      f_equal. apply set_eq. intros key.
      by rewrite !elem_of_list_to_set, elem_of_remove_dups. }
    split; [done|].
    rewrite Hlen. etrans; [apply remove_dups_shorter|apply omap_shorter].
  - intros key. rewrite <-elem_of_dom, scan_dom, elem_of_list_to_set.
    apply list_elem_of_omap.
Qed.

Lemma allValues_insert_new (groups : gmap string Group) key group :
  groups !! key = None →
  allValues (<[key := group]> groups) ≡ₚ Values group ++ allValues groups.
Proof.
  intros Hnew. unfold allValues. by rewrite (map_to_list_insert _ _ _ Hnew).
Qed.

Lemma allValues_insert_old (groups : gmap string Group) key old group :
  groups !! key = Some old →
  Values old ++ allValues (<[key := group]> groups) ≡ₚ Values group ++ allValues groups.
Proof.
  intros Hold. rewrite <-insert_delete_eq.
  rewrite allValues_insert_new by apply lookup_delete_eq.
  unfold allValues at 2. rewrite <-(map_to_list_delete _ _ _ Hold). simpl.
  fold (allValues (delete key groups)).
  rewrite !app_assoc. by rewrite (Permutation_app_comm (Values old)).
Qed.

Lemma processRecord_allValues c (groups : gmap string Group) value :
  allValues (processRecord c groups value) ≡ₚ
    allValues groups ++
    (if recordKey c value is Some _ then recordValues c value else []).
Proof.
  destruct (recordKey c value) as [key|] eqn:Hkey.
  - rewrite (processRecord_grouped _ _ _ _ Hkey). cbv zeta.
    destruct (groups !! key) as [old|] eqn:Hold; cbn [default from_option].
    + apply (Permutation_app_inv_l (Values old)).
      rewrite (allValues_insert_old _ _ _ _ Hold). unfold updateGroup, id.
      cbn [Values]. rewrite appendValues_app. fold (recordValues c value).
      rewrite <-!app_assoc. f_equiv. apply Permutation_app_comm.
    + rewrite (allValues_insert_new _ _ _ Hold). unfold updateGroup, newGroup.
      cbn [Values]. fold (recordValues c value). apply Permutation_app_comm.
  - rewrite processRecord_skipped by done. by rewrite app_nil_r.
Qed.

Lemma foldl_processRecord_allValues c l (groups : gmap string Group) :
  allValues (foldl (processRecord c) groups l) ≡ₚ
    allValues groups ++
    concat (recordValues c <$> filter (λ value, is_Some (recordKey c value)) l).
Proof.
  revert groups. induction l as [|value l IH]; intros groups; simpl.
  - by rewrite app_nil_r.
  - rewrite IH, processRecord_allValues, <-app_assoc. f_equiv.
    destruct (recordKey c value) as [key|] eqn:Hkey.
    + rewrite filter_cons_True by (rewrite Hkey; by eexists). done.
    + rewrite filter_cons_False by (rewrite Hkey; by intros []). done.
Qed.

(** No value is lost and none is made up: the values held by the groups of
    one pass, taken together, are the values of the records that are
    grouped, each as often as it occurs; and the values of a record are the
    numbers of the configured value fields that exist on it. *)
Theorem values_conserved c result :
  allValues (scan c result) ≡ₚ concat (recordValues c <$> included c result) ∧
  ∀ value,
    recordValues c value =
      gjson.Float <$>
        filter (λ val, gjson.Exists val = true)
               (gjson.Get value <$> ValueFields (config c)).
Proof.
  split; [|apply recordValues_fields].
  unfold scan, included. rewrite foldl_processRecord_allValues.
  unfold allValues. by rewrite map_to_list_empty.
Qed.
End PassCounts.

(** ** The objects of a pass *)

Section PassTags.
Context {Result : Type} `{!gjson.Lib Result}.
Implicit Types (c : Compressor) (value : Result) (result : Result).

Lemma emit_lookup c (group : Group) name :
  emit c group !! name =
    match Tags group !! name with
    | Some v => Some (VString v)
    | None =>
        if decide (name = valueFieldOf c)
        then Some (VFloat64 (aggregate c (Values group)))
        else if decide (name = TimestampField (config c))
        then Some (VInt64 (timestampOf c group))
        else None
    end.
Proof.
  unfold emit. cbv zeta. rewrite merge_tags_lookup.
  destruct (Tags group !! name); [done|].
  assert (∀ (obj : gmap string Value),
    match ValueFields (config c) with
    | [f] => <[f := VFloat64 (aggregate c (Values group))]> obj
    | _ => <["value" := VFloat64 (aggregate c (Values group))]> obj
    end = <[valueFieldOf c := VFloat64 (aggregate c (Values group))]> obj) as ->.
  { intros obj. unfold valueFieldOf.
    by destruct (ValueFields (config c)) as [|f [|f' fs]]. }
  destruct (decide (name = valueFieldOf c)) as [->|Hv].
  - by rewrite lookup_insert_eq.
  - rewrite lookup_insert_ne by done. unfold timestampOf.
    destruct (decide (name = TimestampField (config c))) as [->|Ht].
    + repeat case_decide; by rewrite lookup_insert_eq.
    + repeat case_decide; by rewrite lookup_insert_ne, lookup_empty.
Qed.

Lemma emit_in_output c (groups : gmap string Group) key group order :
  groups !! key = Some group → ranges groups order → emit c group ∈ output c order.
Proof.
  intros Hg Horder. apply (elem_of_output c _ _ _ Horder). by exists key, group.
Qed.

(** Every object of one pass, in whatever order the groups are visited, is
    the object of a group, and what it holds under a name is decided in this
    order: the group's tag of that name, as
    a string; else the aggregate, when the name is the single configured
    value field, or ["value"] when the configured value fields are not one;
    else the timestamp, when the name is the timestamp field; else
    nothing. *)
Theorem emitted_entry c result order :
  ranges (scan c result) order →
  Forall
    (λ obj, ∃ key group,
       scan c result !! key = Some group ∧
       ∀ name,
         obj !! name =
           match Tags group !! name with
           | Some tag => Some (VString tag)
           | None =>
               if decide (name = valueFieldOf c)
               then Some (VFloat64 (aggregate c (Values group)))
               else if decide (name = TimestampField (config c))
               then Some (VInt64 (timestampOf c group))
               else None
           end)
    (output c order).
Proof.
  intros Horder. apply Forall_forall. intros obj Hobj.
  apply (elem_of_output c _ _ _ Horder) in Hobj as (key & group & Hkg & ->).
  exists key, group. split; [done|].
  intros name. apply emit_lookup.
Qed.

(** The object of a group carries the tags of the first record of the
    group: under each configured group-by or unique field that exists on
    that record it holds the record's string value of the field, whatever
    the later records of the group hold there; and it has no entry besides
    those, the timestamp and the aggregate. *)
Theorem emitted_tags c result key first rest :
  members c result key = first :: rest →
  ∃ group,
    scan c result !! key = Some group ∧
    (∀ order, ranges (scan c result) order → emit c group ∈ output c order) ∧
    (∀ field,
       field ∈ GroupByFields (config c) ++ UniqueFields (config c) →
       gjson.Exists (gjson.Get first field) = true →
       emit c group !! field = Some (VString (gjson.String (gjson.Get first field)))) ∧
    (∀ name,
       is_Some (emit c group !! name) →
       name = TimestampField (config c) ∨ name = valueFieldOf c ∨
       (name ∈ GroupByFields (config c) ++ UniqueFields (config c) ∧
        gjson.Exists (gjson.Get first name) = true)).
Proof.
  intros Hm. pose proof (scan_lookup_groupOf c result key) as Hg.
  rewrite Hm in Hg. simpl in Hg. eexists. split; [exact Hg|].
  split; [intros order; by eapply emit_in_output|]. split.
  - intros field Hin Hex. rewrite emit_lookup. cbn [Tags].
    rewrite newTags_lookup, decide_True; done.
  - intros name. rewrite emit_lookup. cbn [Tags]. rewrite newTags_lookup.
    case_decide as Htag; [intros _; right; right; done|].
    repeat case_decide; try (intros _; by auto). by intros [].
Qed.
End PassTags.

Lemma emitted_entry_witness :
  let c := NewCompressor (Some sumPerMinute) in
  let obj : gmap string Value := {[ "ts" := VInt64 1005; "val" := VFloat64 30 ]} in
  ∃ key group,
    scan c tenAndTwenty !! key = Some group ∧
    obj !! "val" = Some (VFloat64 (aggregate c (Values group))) ∧
    obj !! "ts" = Some (VInt64 (timestampOf c group)).
Proof.
  intros c obj.
  pose proof (emitted_entry c tenAndTwenty _
                (ranges_map_to_list (scan c tenAndTwenty))) as Hall.
  rewrite Forall_forall in Hall.
  destruct (Hall obj) as (key & group & Hgroup & Hentry).
  - assert (output c (map_to_list (scan c tenAndTwenty)) = [obj]) as -> by reflexivity.
    by apply list_elem_of_singleton.
  - exists key, group. split; [exact Hgroup|].
    assert (Tags group = ∅) as Htags.
    { assert (scan c tenAndTwenty =
                {[ "window:960" := {| Window := 960; Tags := ∅;
                                      Values := [10; 20]%float; Count := 2;
                                      FirstTime := 1000; LastTime := 1010 |} ]})
        as Hscan by reflexivity.
      rewrite Hscan in Hgroup. by apply lookup_singleton_Some in Hgroup as [_ <-]. }
    split.
    + rewrite (Hentry "val"), Htags, lookup_empty. reflexivity.
    + rewrite (Hentry "ts"), Htags, lookup_empty. reflexivity.
Defined.

Lemma emitted_tags_witness :
  let c := NewCompressor (Some perCustomer) in
  let result := jsondoc.Array [web1At1000; web1At1020] in
  ∃ group,
    scan c result !! "window:960;server:web1;unique_customer_id:a" = Some group ∧
    emit c group !! "server" = Some (VString "web1") ∧
    emit c group !! "customer_id" = Some (VString "a").
Proof.
  intros c result.
  destruct (emitted_tags c result "window:960;server:web1;unique_customer_id:a"
              web1At1000 [web1At1020]) as (group & Hgroup & _ & Htags & _);
    [by vm_compute|].
  exists group. split; [exact Hgroup|].
  split; apply Htags;
    [change ("server" ∈ ["server"; "customer_id"]); by left
    |reflexivity
    |change ("customer_id" ∈ ["server"; "customer_id"]); right; by left
    |reflexivity].
Defined.

(** ** Records that carry no value, as CompressJSON returns them *)

(** C10. A record with a nonzero timestamp that has none of the configured
    value fields still creates a group or joins the one at its key, changing
    the timestamps and the count but no value. So when none of the records
    of a key has a configured value field, [CompressJSON] on the array does
    return, and whatever it returns is the marshalling of objects among
    which is the object of that key's group, a group that holds no value
    and whose aggregate is 0; unless a configured group-by or unique field
    has the name of the value field, the object holds 0 under that name.
    The default compressor, given the single record with [timestamp] 1000
    and nothing else, returns the marshalling of the one object with
    [timestamp] 1000 and [value] 0, whatever the marshaller. *)
Theorem valueless_record_emits_zero :
  (∀ Result (L : gjson.Lib Result) c (groups : gmap string Group) (value : Result),
     let timestamp := gjson.Int (gjson.Get value (TimestampField (config c))) in
     gjson.IsObject value = true →
     timestamp ≠ 0%Z →
     (∀ f, f ∈ ValueFields (config c) → gjson.Exists (gjson.Get value f) = false) →
     ∃ key,
       recordKey c value = Some key ∧
       (∀ k, k ≠ key → processRecord c groups value !! k = groups !! k) ∧
       processRecord c groups value !! key =
         Some match groups !! key with
              | None =>
                  {| Window := windowOf c timestamp;
                     Tags := Tags (newGroup c value (windowOf c timestamp) timestamp);
                     Values := []; Count := 1;
                     FirstTime := timestamp; LastTime := timestamp |}
              | Some group =>
                  {| Window := Window group; Tags := Tags group;
                     Values := Values group;
                     Count := int64.wrap64 (Count group + 1);
                     FirstTime := Z.min timestamp (FirstTime group);
                     LastTime := Z.max timestamp (LastTime group) |}
              end) ∧
  (∀ Result (L : gjson.Lib Result) (ParseBytes : bytes → Result)
     (Marshal : list (gmap string Value) → option bytes * option error)
     c (data : bytes) (value : Result) key,
     gjson.IsArray (ParseBytes data) = true →
     value ∈ gjson.ForEach (ParseBytes data) →
     recordKey c value = Some key →
     (∀ value' f, value' ∈ gjson.ForEach (ParseBytes data) →
                  recordKey c value' = Some key →
                  f ∈ ValueFields (config c) →
                  gjson.Exists (gjson.Get value' f) = false) →
     (∃ r, CompressJSON ParseBytes Marshal c data r) ∧
     ∀ r, CompressJSON ParseBytes Marshal c data r →
       ∃ order group,
         ranges (scan c (ParseBytes data)) order ∧
         r = Marshal (output c order) ∧
         scan c (ParseBytes data) !! key = Some group ∧
         emit c group ∈ output c order ∧
         Values group = [] ∧
         aggregate c (Values group) = 0%float ∧
         (valueFieldOf c ∉ GroupByFields (config c) ++ UniqueFields (config c) →
          emit c group !! valueFieldOf c = Some (VFloat64 0))) ∧
  (let c := NewCompressor None in
   let input := jsondoc.Array [record [("timestamp", num 1000)]] in
   let obj : gmap string Value :=
     {[ "timestamp" := VInt64 1000; "value" := VFloat64 0 ]} in
   scan c input =
     {[ "window:960" := {| Window := 960; Tags := ∅; Values := []; Count := 1;
                           FirstTime := 1000; LastTime := 1000 |} ]} ∧
   (∀ order, ranges (scan c input) order → output c order = [obj]) ∧
   ∀ (Marshal : list (gmap string Value) → option bytes * option error) r,
     CompressJSON (parseFrom [input]) Marshal c (payload 0) r ↔ r = Marshal [obj]).
Proof.
  split_and!.
  - intros Result L c groups value. apply valueless_record_joins.
  - intros Result L ParseBytes Marshal c data value key Harr Hin Hkey Habsent.
    split; [apply CompressJSON_returns|].
    intros r (order & Horder & ->)%CompressJSON_array; [|done].
    pose proof (scan_lookup_groupOf c (ParseBytes data) key) as Hgroup.
    assert (value ∈ members c (ParseBytes data) key) as Hmember
      by (by apply list_elem_of_filter).
    assert (concat (recordValues c <$> members c (ParseBytes data) key) = [])
      as Hvalues.
    { apply concat_nil_Forall, Forall_fmap, Forall_forall.
      intros value' [Hkey' Hin']%list_elem_of_filter. simpl.
      apply appendValues_absent. intros f Hf. by apply (Habsent value'). }
    destruct (members c (ParseBytes data) key) as [|first rest] eqn:Hm;
      [by apply elem_of_nil in Hmember|].
    unfold groupOf in Hgroup. rewrite Hvalues in Hgroup.
    eexists order, _. split; [done|]. split; [done|]. split; [exact Hgroup|].
    split; [apply (elem_of_output c _ _ _ Horder); by eexists _, _|].
    split; [done|]. split; [done|].
    intros Hfree. rewrite emit_lookup. cbn [Tags Values].
    rewrite newTags_lookup, decide_False by (by intros [? _]).
    by rewrite decide_True.
  - intros c input obj.
    assert (scan c input =
              {[ "window:960" := {| Window := 960; Tags := ∅; Values := []; Count := 1;
                                    FirstTime := 1000; LastTime := 1000 |} ]}) as Hscan
      by reflexivity.
    split; [done|]. split.
    + intros order Horder. rewrite Hscan in Horder.
      apply ranges_singleton in Horder as ->. reflexivity.
    + intros Marshal r. rewrite CompressJSON_array by reflexivity.
      change (parseFrom [input] (payload 0)) with input. rewrite Hscan. split.
      * intros (order & ->%ranges_singleton & ->). reflexivity.
      * intros ->. exists [("window:960", {| Window := 960; Tags := ∅; Values := [];
                                              Count := 1; FirstTime := 1000;
                                              LastTime := 1000 |})].
        split; [by apply ranges_singleton|reflexivity].
Qed.

(** ** Timestamps and windows of a pass *)

Section PassTimes.
Context {Result : Type} `{!gjson.Lib Result} `{!gjson.Laws Result}.
Implicit Types (c : Compressor) (value : Result) (result : Result).

Lemma members_window c result key first rest value :
  members c result key = first :: rest →
  value ∈ members c result key →
  windowOf c (recordTimestamp c value) = windowOf c (recordTimestamp c first).
Proof.
  intros Hm Hin.
  assert (first ∈ members c result key) as Hfirst by (rewrite Hm; by left).
  unfold members in Hin, Hfirst.
  apply list_elem_of_filter in Hin as [Hk _].
  apply list_elem_of_filter in Hfirst as [Hk1 _].
  apply recordKey_window in Hk. apply recordKey_window in Hk1.
  rewrite Hk in Hk1. by apply groupKeyOf_window in Hk1.
Qed.

Lemma scan_groupTimes c result key group :
  scan c result !! key = Some group → groupTimes c result key group.
Proof.
  intros Hg. rewrite scan_lookup_groupOf in Hg. unfold groupTimes.
  destruct (members c result key) as [|first rest] eqn:Hm; [done|].
  injection Hg as <-. cbn [Window FirstTime LastTime].
  set (times := recordTimestamp c <$> rest).
  destruct (foldl_min_spec (recordTimestamp c first) times) as [Hmin Hminle].
  destruct (foldl_max_spec (recordTimestamp c first) times) as [Hmax Hmaxle].
  change (recordTimestamp c first :: times) with
    (recordTimestamp c <$> first :: rest) in *.
  apply list_elem_of_fmap in Hmin as (vmin & Hvmin & Hinmin).
  apply list_elem_of_fmap in Hmax as (vmax & Hvmax & Hinmax).
  assert (∀ value, value ∈ first :: rest →
            windowOf c (recordTimestamp c value) = windowOf c (recordTimestamp c first))
    as Hwin.
  { intros value Hin. eapply members_window; [done|]. by rewrite Hm. }
  assert (∀ value, value ∈ first :: rest →
            let t := recordTimestamp c value in
            (Z.abs (t - windowOf c (recordTimestamp c first)) < Z.abs (windowSec c))%Z ∧
            (0 < windowSec c → 0 ≤ t →
             windowOf c (recordTimestamp c first) ≤ t
               < windowOf c (recordTimestamp c first) + windowSec c)%Z) as Hnear.
  { intros value Hin t. rewrite <-(Hwin value Hin). fold t.
    rewrite windowOf_quot by apply gjson.Int_range.
    apply quot_mul_near, windowSec_nonzero. }
  split_and!.
  - exists vmin. split; [done|]. done.
  - exists vmax. split; [done|]. done.
  - intros value Hin. split; [|by apply Hwin]. split.
    + apply Hminle, list_elem_of_fmap. by exists value.
    + apply Hmaxle, list_elem_of_fmap. by exists value.
  - rewrite Hvmin. by apply Hnear.
  - rewrite Hvmax. by apply Hnear.
  - intros Hw Hpos. rewrite Hvmin in Hpos |- *. rewrite Hvmax.
    destruct (Hnear vmin Hinmin) as [_ Hlo]. destruct (Hnear vmax Hinmax) as [_ Hhi].
    assert (recordTimestamp c vmin ≤ recordTimestamp c vmax)%Z as Hle.
    { rewrite <-Hvmin. apply Hminle, list_elem_of_fmap. by exists vmax. }
    specialize (Hlo Hw Hpos). cbv zeta in Hhi. specialize (Hhi Hw). lia.
Qed.

(** For every group of one pass: its first and last time are timestamps of
    records of the group, every record of the group has a timestamp between
    them and has the group's window as its own, and both times lie less
    than one window length away from the window. When the window length is
    positive and the first time is not negative, both lie in the window
    proper, from its start up to but excluding the next window. *)
Theorem group_times_in_window c result :
  map_Forall (groupTimes c result) (scan c result).
Proof. intros key group. apply scan_groupTimes. Qed.

(** An object of one pass, in whatever order the groups are visited, that
    holds an integer under the timestamp field holds the timestamp of a
    group there; when the sum of the group's first
    and last time fits in an [int64], that timestamp lies between the two,
    whatever the method, and so, for a positive window length and a first
    time that is not negative, in the group's window. *)
Theorem emitted_timestamp_in_range c result order :
  ranges (scan c result) order →
  Forall
    (λ obj, ∀ t,
       obj !! TimestampField (config c) = Some (VInt64 t) →
       ∃ key group,
         scan c result !! key = Some group ∧
         obj = emit c group ∧
         (int64.InRange (FirstTime group + LastTime group) →
          (FirstTime group ≤ t ≤ LastTime group)%Z ∧
          (0 < windowSec c → 0 ≤ FirstTime group →
           Window group ≤ t < Window group + windowSec c)%Z))
    (output c order).
Proof.
  intros Horder. apply Forall_forall. intros obj Hobj t Ht.
  apply (elem_of_output c _ _ _ Horder) in Hobj as (key & group & Hkg & ->).
  exists key, group.
  split; [done|]. split; [done|]. intros Hsum.
  pose proof (scan_groupTimes c result key group Hkg)
    as (_ & _ & _ & _ & _ & Hpos).
  pose proof (scan_ok c result key group Hkg) as [_ _ _ Hord].
  assert (t = timestampOf c group) as ->.
  { rewrite emit_lookup in Ht. destruct (Tags group !! _); [done|].
    repeat case_decide; by simplify_eq. }
  assert (FirstTime group ≤ timestampOf c group ≤ LastTime group)%Z as Hbetween.
  { unfold timestampOf. repeat case_decide; [lia|lia|].
    rewrite average_no_overflow by done. by apply average_between. }
  split; [done|]. intros Hw Hf. specialize (Hpos Hw Hf). lia.
Qed.
End PassTimes.

Lemma group_times_in_window_witness :
  let c := NewCompressor (Some sumPerMinute) in
  ∃ group,
    scan c tenAndTwenty !! "window:960" = Some group ∧
    (Window group ≤ FirstTime group ∧
     LastTime group < Window group + windowSec c)%Z.
Proof.
  intros c.
  assert (scan c tenAndTwenty !! "window:960" =
            Some {| Window := 960; Tags := ∅; Values := [10; 20]%float;
                    Count := 2; FirstTime := 1000; LastTime := 1010 |}) as Hgroup
    by reflexivity.
  eexists. split; [exact Hgroup|].
  destruct (group_times_in_window c tenAndTwenty "window:960" _ Hgroup)
    as (_ & _ & _ & _ & _ & Hin).
  apply Hin; by vm_compute.
Defined.

Lemma emitted_timestamp_in_range_witness :
  let c := NewCompressor (Some sumPerMinute) in
  ∃ key group,
    scan c tenAndTwenty !! key = Some group ∧
    (FirstTime group ≤ 1005 ≤ LastTime group)%Z ∧
    (Window group ≤ 1005 < Window group + windowSec c)%Z.
Proof.
  intros c.
  pose proof (emitted_timestamp_in_range c tenAndTwenty _
                (ranges_map_to_list (scan c tenAndTwenty))) as Hall.
  rewrite Forall_forall in Hall.
  destruct (Hall {[ "ts" := VInt64 1005; "val" := VFloat64 30 ]}) with (t := 1005%Z)
    as (key & group & Hgroup & _ & Hrange).
  - assert (output c (map_to_list (scan c tenAndTwenty)) =
              [ {[ "ts" := VInt64 1005; "val" := VFloat64 30 ]} ]) as -> by reflexivity.
    by apply list_elem_of_singleton.
  - reflexivity.
  - exists key, group. split; [exact Hgroup|].
    assert (group = {| Window := 960; Tags := ∅; Values := [10; 20]%float;
                       Count := 2; FirstTime := 1000; LastTime := 1010 |}) as ->.
    { assert (scan c tenAndTwenty =
                {[ "window:960" := {| Window := 960; Tags := ∅;
                                      Values := [10; 20]%float; Count := 2;
                                      FirstTime := 1000; LastTime := 1010 |} ]})
        as Hscan by reflexivity.
      rewrite Hscan in Hgroup. apply lookup_singleton_Some in Hgroup as [_ <-]. done. }
    destruct Hrange as [Hbetween Hwindow].
    + simpl. unfold int64.InRange, int64.min, int64.max. lia.
    + split; [exact Hbetween|]. apply Hwindow; by vm_compute.
Defined.

(** ** Which elements of the array matter, and in which order *)

Section PassOrder.
Context {Result : Type} `{!gjson.Lib Result}.
Variable ParseBytes : bytes → Result.
Variable Marshal : list (gmap string Value) → option bytes * option error.
Implicit Types (c : Compressor) (value : Result) (groups : gmap string Group).

Lemma foldl_processRecord_included c l groups :
  foldl (processRecord c) groups l =
    foldl (processRecord c) groups (filter (λ value, is_Some (recordKey c value)) l).
Proof.
  revert groups. induction l as [|value l IH]; intros groups; simpl; [done|].
  destruct (recordKey c value) as [key|] eqn:Hkey.
  - rewrite filter_cons_True by (rewrite Hkey; by eexists). simpl. apply IH.
  - rewrite filter_cons_False by (rewrite Hkey; by intros []).
    rewrite processRecord_skipped by done. apply IH.
Qed.

Lemma scan_included c (result : Result) :
  scan c result = foldl (processRecord c) ∅ (included c result).
Proof. apply foldl_processRecord_included. Qed.

Lemma recordKey_Some c value :
  is_Some (recordKey c value) ↔
    gjson.IsObject value = true ∧ recordTimestamp c value ≠ 0%Z.
Proof.
  unfold recordKey, recordTimestamp. destruct (gjson.IsObject value); simpl.
  - cbv zeta. case_decide as Hz.
    + split; [by intros []|]. by intros [_ ?].
    + split; [done|]. intros _. by eexists.
  - split; [by intros []|]. by intros [? _].
Qed.

Lemma processRecord_comm c groups value1 value2 :
  recordKey c value1 ≠ recordKey c value2 →
  processRecord c (processRecord c groups value1) value2 =
    processRecord c (processRecord c groups value2) value1.
Proof.
  intros Hne.
  destruct (recordKey c value1) as [key1|] eqn:Hkey1;
    [|by rewrite !(processRecord_skipped _ _ value1)].
  destruct (recordKey c value2) as [key2|] eqn:Hkey2;
    [|by rewrite !(processRecord_skipped _ _ value2)].
  assert (key1 ≠ key2) as Hk by congruence.
  rewrite !(processRecord_grouped _ _ _ _ Hkey1), !(processRecord_grouped _ _ _ _ Hkey2).
  cbv zeta. rewrite !lookup_insert_ne by done. by apply insert_insert_ne.
Qed.

(** On an array, the groups of the pass depend on nothing but the elements
    that are objects with a nonzero integer under the timestamp field, in
    their order: numbers, strings, nulls, arrays and objects without a
    timestamp can be added or removed anywhere without changing the groups,
    nor, then, what [CompressJSON] may return, which is the marshalling of
    the objects of the groups in any order. An array with no such element
    gives no group, so that the only return is the marshalling of the empty
    list of objects. *)
Theorem only_included_records_count c (data : bytes) :
  gjson.IsArray (ParseBytes data) = true →
  (∀ value, value ∈ included c (ParseBytes data) ↔
     value ∈ gjson.ForEach (ParseBytes data) ∧
     gjson.IsObject value = true ∧
     gjson.Int (gjson.Get value (TimestampField (config c))) ≠ 0%Z) ∧
  (included c (ParseBytes data) = [] →
   scan c (ParseBytes data) = ∅ ∧
   ∀ r, CompressJSON ParseBytes Marshal c data r ↔ r = Marshal []) ∧
  (∀ data' : bytes,
     gjson.IsArray (ParseBytes data') = true →
     included c (ParseBytes data) = included c (ParseBytes data') →
     scan c (ParseBytes data) = scan c (ParseBytes data') ∧
     ∀ r, CompressJSON ParseBytes Marshal c data r ↔
          CompressJSON ParseBytes Marshal c data' r).
Proof.
  intros Harr. split_and!.
  - intros value. unfold included. rewrite list_elem_of_filter, recordKey_Some.
    unfold recordTimestamp. tauto.
  - intros Hnone.
    assert (scan c (ParseBytes data) = ∅) as Hscan by (by rewrite scan_included, Hnone).
    split; [done|]. intros r. rewrite CompressJSON_array, Hscan by done. split.
    + by intros (order & ->%ranges_empty & ->).
    + intros ->. exists []. by rewrite ranges_empty.
  - intros data' Harr' Hsame.
    assert (scan c (ParseBytes data) = scan c (ParseBytes data')) as Hscan
      by (by rewrite !scan_included, Hsame).
    split; [done|]. intros r. by apply CompressJSON_same_scan.
Qed.

(** Two neighbours in the array that do not have the same key, one of which
    may be an element that is skipped, can change places: the groups of the
    pass stay the same, and so does what [CompressJSON] may return, the
    marshalling of the objects of the groups in any order. For the groups,
    only the order among the records of one key matters. *)
Theorem different_groups_commute c (data data' : bytes) before value1 value2 after :
  gjson.IsArray (ParseBytes data) = true →
  gjson.IsArray (ParseBytes data') = true →
  gjson.ForEach (ParseBytes data) = before ++ value1 :: value2 :: after →
  gjson.ForEach (ParseBytes data') = before ++ value2 :: value1 :: after →
  recordKey c value1 ≠ recordKey c value2 →
  scan c (ParseBytes data) = scan c (ParseBytes data') ∧
  ∀ r, CompressJSON ParseBytes Marshal c data r ↔
       CompressJSON ParseBytes Marshal c data' r.
Proof.
  intros Harr Harr' Helems Helems' Hne.
  assert (scan c (ParseBytes data) = scan c (ParseBytes data')) as Hscan.
  { unfold scan. rewrite Helems, Helems', !foldl_app. cbn [foldl].
    by rewrite processRecord_comm. }
  split; [done|]. intros r. by apply CompressJSON_same_scan.
Qed.

(** For two objects with nonzero timestamps: equal keys force equal
    windows, so records of different windows are never grouped together;
    records of one window on which the same group-by and unique fields exist
    with the same string values have the same key; and when they agree on
    the group-by fields and on all unique fields but one, where their string
    values differ, their keys differ. *)
Theorem record_key_components c value1 value2 :
  let window1 := windowOf c (recordTimestamp c value1) in
  let window2 := windowOf c (recordTimestamp c value2) in
  gjson.IsObject value1 = true → recordTimestamp c value1 ≠ 0%Z →
  gjson.IsObject value2 = true → recordTimestamp c value2 ≠ 0%Z →
  (recordKey c value1 = recordKey c value2 → window1 = window2) ∧
  (window1 = window2 →
   present (GroupByFields (config c)) value1 = present (GroupByFields (config c)) value2 →
   (present (UniqueFields (config c)) value1 = present (UniqueFields (config c)) value2 →
    recordKey c value1 = recordKey c value2) ∧
   (∀ before field s1 s2 after,
      present (UniqueFields (config c)) value1 = before ++ (field, s1) :: after →
      present (UniqueFields (config c)) value2 = before ++ (field, s2) :: after →
      s1 ≠ s2 →
      recordKey c value1 ≠ recordKey c value2)).
Proof.
  intros window1 window2 Hobj1 Hts1 Hobj2 Hts2.
  assert (recordKey c value1 = Some (groupKeyOf c value1 window1)) as ->.
  { unfold recordKey. rewrite Hobj1. simpl. fold (recordTimestamp c value1).
    by rewrite decide_False. }
  assert (recordKey c value2 = Some (groupKeyOf c value2 window2)) as ->.
  { unfold recordKey. rewrite Hobj2. simpl. fold (recordTimestamp c value2).
    by rewrite decide_False. }
  split.
  - intros [= Hkey]. by apply groupKeyOf_window in Hkey.
  - intros <- Hgroup. split.
    + intros Hunique. f_equal. by apply same_components_same_key.
    + intros before field s1 s2 after Hu1 Hu2 Hs [= Hkey]. revert Hkey.
      by eapply unique_value_changes_key.
Qed.
End PassOrder.

Lemma only_included_records_count_witness :
  let parse := parseFrom [mixedArray; jsondoc.Array [kept]; nothingKept] in
  let c := NewCompressor None in
  (∀ r, CompressJSON parse marshalCount c (payload 0) r ↔
        CompressJSON parse marshalCount c (payload 1) r) ∧
  (∀ r, CompressJSON parse marshalCount c (payload 2) r ↔ r = marshalCount []).
Proof.
  intros parse c. split.
  - destruct (only_included_records_count parse marshalCount c (payload 0))
      as (_ & _ & Hsame); [reflexivity|].
    apply (Hsame (payload 1)); reflexivity.
  - destruct (only_included_records_count parse marshalCount c (payload 2))
      as (_ & Hnone & _); [reflexivity|].
    apply Hnone. reflexivity.
Defined.

(** Two groups: a call may return the marshalling of their two objects in
    the one order, and it may return it in the other. *)
Example CompressJSON_either_order :
  let parse := parseFrom [jsondoc.Array [kept; later]] in
  let c := NewCompressor None in
  let first : gmap string Value :=
    {[ "timestamp" := VInt64 1000; "value" := VFloat64 20 ]} in
  let second : gmap string Value :=
    {[ "timestamp" := VInt64 2000; "value" := VFloat64 30 ]} in
  ∀ Marshal : list (gmap string Value) → option bytes * option error,
    CompressJSON parse Marshal c (payload 0) (Marshal [first; second]) ∧
    CompressJSON parse Marshal c (payload 0) (Marshal [second; first]) ∧
    ∀ r, CompressJSON parse Marshal c (payload 0) r →
         r = Marshal [first; second] ∨ r = Marshal [second; first].
Proof.
  intros parse c first second Marshal.
  set (g1 := {| Window := 960; Tags := ∅; Values := [20]%float; Count := 1;
                FirstTime := 1000; LastTime := 1000 |}).
  set (g2 := {| Window := 1980; Tags := ∅; Values := [30]%float; Count := 1;
                FirstTime := 2000; LastTime := 2000 |}).
  assert (scan c (parse (payload 0)) =
            {[ "window:960" := g1; "window:1980" := g2 ]}) as Hscan by reflexivity.
  assert (∀ order, ranges (scan c (parse (payload 0))) order ↔
                   order ≡ₚ [("window:960", g1); ("window:1980", g2)]) as Horders.
  { intros order. unfold ranges. rewrite Hscan.
    rewrite map_to_list_insert by done. by rewrite map_to_list_singleton. }
  split_and!.
  - change (Marshal [first; second]) with
      (Marshal (output c [("window:960", g1); ("window:1980", g2)])).
    apply CompressJSON_marshal; [done|]. by apply Horders.
  - change (Marshal [second; first]) with
      (Marshal (output c [("window:1980", g2); ("window:960", g1)])).
    apply CompressJSON_marshal; [done|]. apply Horders. apply perm_swap.
  - intros r Hr. apply CompressJSON_array in Hr as (order & Horder & ->); [|done].
    apply (proj1 (Horders order)) in Horder. symmetry in Horder.
    apply Permutation_length_2_inv in Horder as [->| ->]; [by left|by right].
Qed.

Lemma different_groups_commute_witness :
  let parse := parseFrom [jsondoc.Array [kept; later]; jsondoc.Array [later; kept]] in
  let c := NewCompressor None in
  scan c (parse (payload 0)) = scan c (parse (payload 1)) ∧
  ∀ r, CompressJSON parse marshalCount c (payload 0) r ↔
       CompressJSON parse marshalCount c (payload 1) r.
Proof.
  intros parse c.
  apply (different_groups_commute parse marshalCount c (payload 0) (payload 1)
           [] kept later []); try reflexivity.
  by vm_compute.
Defined.

Lemma record_key_components_witness :
  let c := NewCompressor (Some perCustomer) in
  recordKey c web1At1000 = recordKey c web1At1020 ∧
  recordKey c web1At1000 ≠ recordKey c otherCustomer.
Proof.
  intros c. split.
  - destruct (record_key_components c web1At1000 web1At1020) as [_ Hsame];
      [reflexivity|by vm_compute|reflexivity|by vm_compute|].
    apply Hsame; reflexivity.
  - destruct (record_key_components c web1At1000 otherCustomer) as [_ Hsame];
      [reflexivity|by vm_compute|reflexivity|by vm_compute|].
    destruct Hsame as [_ Hdiffer]; [reflexivity|reflexivity|].
    apply (Hdiffer [] "customer_id" "a" "b" []); [reflexivity|reflexivity|done].
Defined.

(** ** Runs of CompressBatch, state by state *)

Section BatchStates.
Context {Result : Type} `{!gjson.Lib Result}.
Variable ParseBytes : bytes → Result.
Variable Marshal : list (gmap string Value) → option bytes * option error.

Local Abbreviation step c := (batchStep ParseBytes Marshal c).

Lemma startedIn_dec run i : startedIn run i ∨ ¬ startedIn run i.
Proof.
  induction run as [|[j d p] run IH].
  - right. intros [d Hd]. by apply elem_of_nil in Hd.
  - destruct IH as [[d' Hd']|Hno]; [left; exists d'; by right|].
    destruct (decide (j = i)) as [->|Hne].
    + destruct p; [left; exists d; by left|..];
        right; intros [d' [Heq|Hd']%elem_of_cons]; try discriminate;
        apply Hno; by exists d'.
    + right. intros [d' [Heq|Hd']%elem_of_cons]; [congruence|].
      apply Hno. by exists d'.
Qed.

Lemma unstored_dec st i : unstored st i ∨ ¬ unstored st i.
Proof.
  unfold unstored. destruct (decide (i ∈ (todo st).*1)); [by left; left|].
  destruct (startedIn_dec (running st) i); [by left; right|]. right. tauto.
Qed.

(** With a compressor made by [NewCompressor], in every state of every run
    of [CompressBatch] the goroutines that hold a permit of the semaphore
    are at most [Workers], and they are among the goroutines that have not
    returned. *)
Theorem semaphore_bound (cfg : option Config) (batches : list bytes) st :
  let c := NewCompressor cfg in
  rtc (step c) (batchInit batches) st →
  (0 ≤ permits st ≤ Workers (config c))%Z ∧
  (permits st ≤ Z.of_nat (length (running st)))%Z.
Proof.
  intros c Hrun. pose proof (NewCompressor_workers cfg) as Hw. fold c in Hw.
  split_and!.
  - unfold permits. lia.
  - eapply run_permits; [lia|done].
  - unfold permits. apply inj_le, length_filter.
Qed.

(** In every state of every run of [CompressBatch], with any compressor:
    the result has a slot for each payload; no two goroutines that have not
    returned were given the same index, and each was given the payload at its
    index; and a slot holds nil until the goroutine of its index has run
    [CompressJSON], and from then on what that call returned: its output, or
    nil still when it returned an error. *)
Theorem slots_written_once (c : Compressor) (batches : list bytes) st :
  rtc (step c) (batchInit batches) st →
  length (results st) = length batches ∧
  NoDup (idx <$> running st) ∧
  (∀ g, g ∈ running st → batches !! idx g = Some (data g)) ∧
  (∀ i data, batches !! i = Some data →
     (unstored st i ∧ results st !! i = Some None) ∨
     (¬ unstored st i ∧
      ∃ r, CompressJSON ParseBytes Marshal c data r ∧
           results st !! i = Some (slotOf r))).
Proof.
  intros Hrun. destruct (run_inv ParseBytes Marshal c batches st Hrun)
    as [Hlen Hnodup _ Hrunning Hunstored Hstored].
  split_and!; [done|by apply NoDup_app in Hnodup as (_ & _ & ?)|done|].
  intros i d Hi. destruct (unstored_dec st i) as [Hun|Hst].
  - left. split; [done|]. by apply Hunstored.
  - right. split; [done|].
    destruct (Hstored i d Hi Hst) as (slot & Hslot & r & Hr & ->). by exists r.
Qed.

(** With a compressor made by [NewCompressor], [CompressBatch] on two
    batches put end to end returns the results of the one followed by the
    results of the other: no payload's result depends on the payloads
    around it. *)
Theorem CompressBatch_app (cfg : option Config) (batches1 batches2 : list bytes) res :
  let c := NewCompressor cfg in
  CompressBatchReturns ParseBytes Marshal c (batches1 ++ batches2) res ↔
  ∃ res1 res2,
    CompressBatchReturns ParseBytes Marshal c batches1 res1 ∧
    CompressBatchReturns ParseBytes Marshal c batches2 res2 ∧
    res = res1 ++ res2.
Proof.
  intros c. pose proof (NewCompressor_workers cfg) as Hw. fold c in Hw.
  assert (∀ batches res,
            CompressBatchReturns ParseBytes Marshal c batches res ↔
            Forall2 (slotFor ParseBytes Marshal c) batches res) as Hret.
  { intros batches r. split; [apply CompressBatch_sound|by apply CompressBatch_complete]. }
  rewrite Hret. split.
  - intros (res1 & res2 & Hres1 & Hres2 & ->)%Forall2_app_inv_l.
    exists res1, res2. by rewrite !Hret.
  - intros (res1 & res2 & Hres1%Hret & Hres2%Hret & ->). by apply Forall2_app.
Qed.
End BatchStates.

Lemma afterFirstSpawn_reached :
  rtc (batchStep (parseFrom [tenAndTwenty; notArray]) marshalCount
                 (NewCompressor (Some sumPerMinute)))
      (batchInit [payload 0; payload 1]) afterFirstSpawn.
Proof.
  apply rtc_once.
  apply (step_spawn _ _ _ 0 (payload 0) [(1, payload 1)] [] [None; None]).
  reflexivity.
Qed.

Lemma semaphore_bound_witness :
  (0 ≤ permits afterFirstSpawn ≤ 2)%Z ∧
  (permits afterFirstSpawn ≤ 1)%Z.
Proof.
  apply (semaphore_bound (parseFrom [tenAndTwenty; notArray]) marshalCount
           (Some sumPerMinute) [payload 0; payload 1] afterFirstSpawn).
  apply afterFirstSpawn_reached.
Defined.

Lemma slots_written_once_witness :
  results afterFirstSpawn !! 0 = Some None ∧
  length (results afterFirstSpawn) = 2.
Proof.
  destruct (slots_written_once (parseFrom [tenAndTwenty; notArray]) marshalCount
              (NewCompressor (Some sumPerMinute)) [payload 0; payload 1]
              afterFirstSpawn afterFirstSpawn_reached)
    as (Hlen & _ & _ & Hslots).
  split; [|exact Hlen].
  destruct (Hslots 0 (payload 0) eq_refl) as [[_ Hnil]|[Hstored _]]; [exact Hnil|].
  exfalso. apply Hstored. right. exists (payload 0). by left.
Defined.

(** ** Loading the configuration *)

(** A guarded assignment to a field is an assignment of a guarded value. *)
Lemma when_setTimestamp cfg v :
  config.when (λ cfg, config.Timestamp cfg = "") (λ cfg, config.setTimestamp cfg v) cfg =
    config.setTimestamp cfg
      (if decide (config.Timestamp cfg = "") then v else config.Timestamp cfg).
Proof. unfold config.when. by destruct cfg, (decide _). Qed.

Lemma when_setValues cfg v :
  config.when (λ cfg, length (config.Values cfg) = 0)
              (λ cfg, config.setValues cfg v) cfg =
    config.setValues cfg
      (if decide (config.Values cfg = []) then v else config.Values cfg).
Proof. unfold config.when. by destruct cfg as [? [] ? ? ? ? ? ?]. Qed.

Lemma when_setMethod cfg v :
  config.when (λ cfg, config.Method cfg = "") (λ cfg, config.setMethod cfg v) cfg =
    config.setMethod cfg (if decide (config.Method cfg = "") then v else config.Method cfg).
Proof. unfold config.when. by destruct cfg, (decide _). Qed.

Lemma when_setWindow cfg v :
  config.when (λ cfg, config.Window cfg = 0%Z) (λ cfg, config.setWindow cfg v) cfg =
    config.setWindow cfg (if decide (config.Window cfg = 0%Z) then v else config.Window cfg).
Proof. unfold config.when. by destruct cfg, (decide _). Qed.

Lemma when_setWorkers cfg v :
  config.when (λ cfg, config.Workers cfg = 0%Z) (λ cfg, config.setWorkers cfg v) cfg =
    config.setWorkers cfg
      (if decide (config.Workers cfg = 0%Z) then v else config.Workers cfg).
Proof. unfold config.when. by destruct cfg, (decide _). Qed.

Lemma when_setURL cfg v :
  config.when (λ cfg, config.URL (config.NATS cfg) = "")
              (λ cfg, config.setNATS cfg (config.setURL (config.NATS cfg) v)) cfg =
    config.setNATS cfg
      (config.setURL (config.NATS cfg)
         (if decide (config.URL (config.NATS cfg) = "") then v
          else config.URL (config.NATS cfg))).
Proof. unfold config.when. by destruct cfg as [? ? ? ? ? ? ? []], (decide _). Qed.

Lemma when_setSubject cfg v :
  config.when (λ cfg, config.Subject (config.NATS cfg) = "")
              (λ cfg, config.setNATS cfg (config.setSubject (config.NATS cfg) v)) cfg =
    config.setNATS cfg
      (config.setSubject (config.NATS cfg)
         (if decide (config.Subject (config.NATS cfg) = "") then v
          else config.Subject (config.NATS cfg))).
Proof. unfold config.when. by destruct cfg as [? ? ? ? ? ? ? []], (decide _). Qed.

Lemma when_setQueue cfg v :
  config.when (λ cfg, config.Queue (config.NATS cfg) = "")
              (λ cfg, config.setNATS cfg (config.setQueue (config.NATS cfg) v)) cfg =
    config.setNATS cfg
      (config.setQueue (config.NATS cfg)
         (if decide (config.Queue (config.NATS cfg) = "") then v
          else config.Queue (config.NATS cfg))).
Proof. unfold config.when. by destruct cfg as [? ? ? ? ? ? ? []], (decide _). Qed.

Lemma when_setOutputSubject cfg v :
  config.when (λ cfg, config.OutputSubject (config.NATS cfg) = "")
              (λ cfg, config.setNATS cfg
                        (config.setOutputSubject (config.NATS cfg) v)) cfg =
    config.setNATS cfg
      (config.setOutputSubject (config.NATS cfg)
         (if decide (config.OutputSubject (config.NATS cfg) = "") then v
          else config.OutputSubject (config.NATS cfg))).
Proof. unfold config.when. by destruct cfg as [? ? ? ? ? ? ? []], (decide _). Qed.

(** Carries out the assignments to a configuration given field by field. *)
Ltac assigned :=
  cbn
    [config.setTimestamp config.setValues config.setMethod config.setWindow
     config.setWorkers config.setNATS config.setURL config.setSubject
     config.setQueue config.setOutputSubject
     config.Timestamp config.Values config.GroupBy config.Unique config.Method
     config.Window config.Workers config.NATS
     config.URL config.Subject config.Queue config.OutputSubject].

Section LoadConfigProperties.
Variable ReadFile : string → bytes * option error.
Variable Unmarshal : bytes → config.Config → config.Config * option error.

Lemma LoadConfig_loaded path data cfg :
  ReadFile path = (data, None) →
  Unmarshal data config.zero = (cfg, None) →
  config.LoadConfig ReadFile Unmarshal path = (Some (loaded cfg), None).
Proof.
  intros Hread Hyaml. unfold config.LoadConfig. rewrite Hread, Hyaml.
  destruct cfg as [ts vs gb uq m w k [url subj q out]].
  rewrite when_setTimestamp; assigned. rewrite when_setValues; assigned.
  rewrite when_setMethod; assigned. rewrite when_setWindow; assigned.
  rewrite when_setWorkers; assigned. rewrite when_setURL; assigned.
  rewrite when_setSubject; assigned. rewrite when_setQueue; assigned.
  rewrite when_setOutputSubject; assigned. reflexivity.
Qed.

Lemma LoadConfig_failed path data err :
  ReadFile path = (data, Some err) ∨
  (ReadFile path = (data, None) ∧ (Unmarshal data config.zero).2 = Some err) →
  config.LoadConfig ReadFile Unmarshal path = (None, Some err).
Proof.
  intros [Hread|[Hread Hyaml]]; unfold config.LoadConfig; rewrite Hread; [done|].
  destruct (Unmarshal data config.zero) as [cfg e]. simpl in Hyaml. by subst e.
Qed.

(** [LoadConfig] returns the error of reading the file, or else the error
    of decoding it, and no configuration with either. Without an error it
    returns what was decoded into the zero configuration, with
    ["timestamp"], [["value"]], ["sum"], one minute, 4 and the four NATS
    names put in place of an empty string, no values, a zero window and a
    worker count of exactly 0; the group-by and unique fields, and a worker
    count below 0, stay as decoded. *)
Theorem LoadConfig_defaults path :
  match ReadFile path with
  | (_, Some err) => config.LoadConfig ReadFile Unmarshal path = (None, Some err)
  | (data, None) =>
      match Unmarshal data config.zero with
      | (_, Some err) => config.LoadConfig ReadFile Unmarshal path = (None, Some err)
      | (cfg, None) =>
          ∃ r, config.LoadConfig ReadFile Unmarshal path = (Some r, None) ∧
            config.Timestamp r =
              (if decide (config.Timestamp cfg = "") then "timestamp"
               else config.Timestamp cfg) ∧
            config.Values r =
              (if decide (config.Values cfg = []) then ["value"] else config.Values cfg) ∧
            config.GroupBy r = config.GroupBy cfg ∧
            config.Unique r = config.Unique cfg ∧
            config.Method r =
              (if decide (config.Method cfg = "") then "sum" else config.Method cfg) ∧
            config.Window r =
              (if decide (config.Window cfg = 0) then 60 * time.Second
               else config.Window cfg)%Z ∧
            config.Workers r =
              (if decide (config.Workers cfg = 0) then 4 else config.Workers cfg)%Z ∧
            config.URL (config.NATS r) =
              (if decide (config.URL (config.NATS cfg) = "")
               then "nats://localhost:4222" else config.URL (config.NATS cfg)) ∧
            config.Subject (config.NATS r) =
              (if decide (config.Subject (config.NATS cfg) = "")
               then "timeseries.raw" else config.Subject (config.NATS cfg)) ∧
            config.Queue (config.NATS r) =
              (if decide (config.Queue (config.NATS cfg) = "")
               then "compressor" else config.Queue (config.NATS cfg)) ∧
            config.OutputSubject (config.NATS r) =
              (if decide (config.OutputSubject (config.NATS cfg) = "")
               then "timeseries.compressed"
               else config.OutputSubject (config.NATS cfg))
      end
  end.
Proof.
  destruct (ReadFile path) as [data [err|]] eqn:Hread.
  { apply (LoadConfig_failed path data). by left. }
  destruct (Unmarshal data config.zero) as [cfg [err|]] eqn:Hyaml.
  { apply (LoadConfig_failed path data). right. by rewrite Hyaml. }
  exists (loaded cfg). split; [by apply (LoadConfig_loaded path data)|].
  split_and!; reflexivity.
Qed.

End LoadConfigProperties.

